(** * update_imports.py: rewriting an import path prefix across a tree of Go files

    A shallow embedding of [services/update_imports.py].  The script walks
    the current directory, keeps the files whose name ends with [.go], and
    for each of them reads the text, replaces one module path prefix by
    another with [str.replace], and writes the file back when the text
    changed.

    The definitions come first:
    - [Text]: Python strings as lists of characters, with [str.startswith],
      [str.find], [str.replace] and [str.join];
    - [Codec]: the UTF-8 codec and the newline translation that
      [open(..., 'r' / 'w', encoding='utf-8')] performs;
    - [FS]: a directory tree with file permissions, the system around it
      (what the standard output can encode, which directories can be
      listed, where the device fails on writing), the world the script
      runs in (tree, standard output, trace of the files opened), and
      the computations on it, which may raise;
    - [Script]: [update_imports_in_file] and [main], in any system
      ([update_imports_in_file_on], [main_on]) and in the fair system
      ([update_imports_in_file], [main], [run]), where every path can be
      printed, every directory can be listed and every write goes
      through;
    - [Outcome]: the cases of one call, used to reason on a run;
    - [Trees]: some trees and systems to run the script on.

    The properties follow: [TextFacts] and [ReplaceFacts] on strings,
    [CodecFacts] on text files, [FSFacts] on trees, [StepFacts] and
    [RunFacts] on calls and runs for any rule, [ScriptFacts] for the rule
    of the script, and [Claims] for the properties the specification
    states.  After them, [WalkFacts], [CountFacts], [NameFacts],
    [CallFacts] and [SystemFacts] lead to [Extras]: what else the code
    shows, on the walk, on single calls, on the replacement and on whole
    runs.

    What the model leaves out: every file has one name, so there are no
    hard links and no symbolic links; a failure comes from the tree (a
    missing path, a permission, bytes that are not UTF-8) or from the
    system, so it is the same each time the same file is tried; reading
    an open file fails only in decoding; nothing interrupts the script
    from outside. *)

From Stdlib Require Import Strings.Byte Strings.Ascii Strings.String NArith Lia.
From Stdlib Require Import DecimalString.
From stdpp Require Import base option list strings.

Set Warnings "-register-all,-clear-no-such-hyp".
Open Scope list_scope.

(** ** Python strings *)

Module Text.
Section text.
Context {A : Type} `{EqDecision A}.
Implicit Types (s pat old new r : list A) (i j : nat).

(** [s.startswith(pat)] *)
Fixpoint starts_with pat s : bool :=
  match pat, s with
  | [], _ => true
  | _ :: _, [] => false
  | a :: pat', b :: s' => bool_decide (a = b) && starts_with pat' s'
  end.

(** [s.find(pat)]: the lowest index at which [pat] occurs in [s];
    [None] stands for Python's [-1]. *)
Fixpoint find pat s {struct s} : option nat :=
  if starts_with pat s then Some 0
  else match s with
       | [] => None
       | _ :: s' => S <$> find pat s'
       end.

(** [sep.join(parts)] *)
Fixpoint join sep (parts : list (list A)) : list A :=
  match parts with
  | [] => []
  | [p] => p
  | p :: rest => p ++ sep ++ join sep rest
  end.

(** The loop of [str.replace] for a non-empty [old]: find the next
    occurrence, copy the text before it, emit [new], and go on after the
    occurrence.  Every round consumes at least one character of [s], so
    [length s] rounds are enough. *)
Fixpoint replace_loop (fuel : nat) old new s : list A :=
  match fuel with
  | O => s
  | S fuel' =>
      match find old s with
      | None => s
      | Some i => take i s ++ new ++ replace_loop fuel' old new (drop (i + length old) s)
      end
  end.

(** [s.replace(old, new)].  With an empty [old], Python inserts [new]
    before every character and at the end. *)
Definition str_replace old new s : list A :=
  match old with
  | [] => new ++ flat_map (λ c, c :: new) s
  | _ :: _ => replace_loop (length s) old new s
  end.

(** The offset in [sep.join(parts)] of the separator that follows the
    part of index [k]. *)
Definition junction sep (parts : list (list A)) (k : nat) : nat :=
  length (join sep (take (S k) parts)).

(** [pat] occurs in [s] at offset [i]. *)
Definition occurs_at pat s i : Prop :=
  ∃ a b, s = a ++ pat ++ b ∧ length a = i.

Definition occurs pat s : Prop := ∃ i, occurs_at pat s i.

(** The offsets at which [pat] occurs in [s], in increasing order. *)
Definition occurrences pat s : list nat :=
  filter (λ i, starts_with pat (drop i s) = true) (seq 0 (S (length s))).

(** What "replacing the non-overlapping occurrences in one left-to-right
    pass" means: the leftmost occurrence of [old] is replaced by [new],
    and the pass goes on with the text after that occurrence only. *)
Inductive replaced_ltr old new : list A → list A → Prop :=
| replaced_done s :
    ¬ occurs old s → replaced_ltr old new s s
| replaced_next pre rest r :
    (∀ j, occurs_at old (pre ++ old ++ rest) j → length pre ≤ j) →
    replaced_ltr old new rest r →
    replaced_ltr old new (pre ++ old ++ rest) (pre ++ new ++ r).

(** Two strings are compatible when one is a prefix of the other. *)
Fixpoint compatible s r : bool :=
  match s, r with
  | a :: s', b :: r' => bool_decide (a = b) && compatible s' r'
  | _, _ => true
  end.

(** A sufficient condition for a replacement not to create occurrences
    of [old]: no suffix of [new] is compatible with [old], and no proper
    suffix of [old] is compatible with [new]. *)
Definition no_overlap old new : bool :=
  forallb (λ k, negb (compatible (drop k new) old)) (seq 0 (length new)) &&
  forallb (λ k, negb (compatible (drop k old) new)) (seq 1 (length old - 1)).

(** [old] has no border: no proper non-empty suffix of [old] is a prefix
    of [old], so two occurrences of [old] never overlap. *)
Definition unbordered old : bool :=
  forallb (λ k, negb (compatible (drop k old) old)) (seq 1 (length old - 1)).

End text.
End Text.

(** ** Text files: UTF-8 and newline translation

    The script opens files in text mode with [encoding='utf-8'] and the
    default [newline=None].  Reading decodes the bytes strictly and then
    turns every ["\r\n"] and every lone ["\r"] into ["\n"]; writing turns
    every ["\n"] into [os.linesep] and encodes the result. *)

Module Codec.

(** A Python string is a sequence of code points. *)
Abbreviation text := (list N).

Definition py_str (s : string) : text :=
  N_of_ascii <$> list_ascii_of_string s.

Definition byte_of (n : N) : byte := default x00 (Byte.of_N n).

Definition is_cont (n : N) : bool := ((0x80 <=? n) && (n <=? 0xBF))%N.

Definition is_surrogate (c : N) : bool := ((0xD800 <=? c) && (c <=? 0xDFFF))%N.

(** The UTF-8 form of one code point.  Surrogates (and values above
    U+10FFFF, which no Python string holds) have none. *)
Definition encode_char (c : N) : option (list byte) :=
  (if c <? 0x80 then Some [byte_of c]
   else if c <? 0x800 then
     Some [byte_of (0xC0 + c / 64); byte_of (0x80 + c mod 64)]
   else if c <? 0x10000 then
     if is_surrogate c then None
     else Some [byte_of (0xE0 + c / 4096); byte_of (0x80 + (c / 64) mod 64);
                byte_of (0x80 + c mod 64)]
   else if c <? 0x110000 then
     Some [byte_of (0xF0 + c / 262144); byte_of (0x80 + (c / 4096) mod 64);
           byte_of (0x80 + (c / 64) mod 64); byte_of (0x80 + c mod 64)]
   else None)%N.

Fixpoint utf8_encode (s : text) : option (list byte) :=
  match s with
  | [] => Some []
  | c :: s' =>
      match encode_char c, utf8_encode s' with
      | Some bs, Some rest => Some (bs ++ rest)
      | _, _ => None
      end
  end.

(** Strict UTF-8 decoding: truncated sequences, stray continuation bytes,
    overlong forms, surrogates and values above U+10FFFF are errors. *)
Fixpoint utf8_decode (bs : list byte) : option text :=
  match bs with
  | [] => Some []
  | b0 :: r0 =>
    let n0 := Byte.to_N b0 in
    if (n0 <? 0x80)%N then cons n0 <$> utf8_decode r0 else
    match r0 with
    | [] => None
    | b1 :: r1 =>
      let n1 := Byte.to_N b1 in
      if negb (is_cont n1) then None else
      if ((0xC2 <=? n0) && (n0 <=? 0xDF))%N then
        cons ((n0 - 0xC0) * 64 + (n1 - 0x80))%N <$> utf8_decode r1
      else
      match r1 with
      | [] => None
      | b2 :: r2 =>
        let n2 := Byte.to_N b2 in
        if negb (is_cont n2) then None else
        if ((0xE0 <=? n0) && (n0 <=? 0xEF))%N then
          let c := ((n0 - 0xE0) * 4096 + (n1 - 0x80) * 64 + (n2 - 0x80))%N in
          if (c <? 0x800)%N || is_surrogate c then None
          else cons c <$> utf8_decode r2
        else
        match r2 with
        | [] => None
        | b3 :: r3 =>
          let n3 := Byte.to_N b3 in
          if negb (is_cont n3) then None else
          if ((0xF0 <=? n0) && (n0 <=? 0xF4))%N then
            let c := ((n0 - 0xF0) * 262144 + (n1 - 0x80) * 4096
                      + (n2 - 0x80) * 64 + (n3 - 0x80))%N in
            if ((c <? 0x10000) || (0x10FFFF <? c))%N then None
            else cons c <$> utf8_decode r3
          else None
        end
      end
    end
  end.

Definition LF : N := 10.
Definition CR : N := 13.

(** Reading with [newline=None]: ["\r\n"] and ["\r"] become ["\n"]. *)
Fixpoint universal_newlines (s : text) : text :=
  match s with
  | [] => []
  | c :: r =>
      if (c =? CR)%N then
        LF :: match r with
              | d :: r' => if (d =? LF)%N then universal_newlines r'
                           else universal_newlines r
              | [] => []
              end
      else c :: universal_newlines r
  end.

Inductive platform := Posix | Windows.

(** [os.linesep] *)
Definition linesep (pl : platform) : text :=
  match pl with
  | Posix => [LF]
  | Windows => [CR; LF]
  end.

(** Writing with [newline=None]: ["\n"] becomes [os.linesep]. *)
Definition write_newlines (pl : platform) (s : text) : text :=
  flat_map (λ c, if (c =? LF)%N then linesep pl else [c]) s.

(** What [f.read()] returns for a file holding [bs]. *)
Definition decode_text (bs : list byte) : option text :=
  universal_newlines <$> utf8_decode bs.

(** The bytes [f.write(s)] puts in the file. *)
Definition encode_text (pl : platform) (s : text) : option (list byte) :=
  utf8_encode (write_newlines pl s).

#[global] Instance byte_eq_dec : EqDecision byte := Byte.byte_eq_dec.

(** The code points a decoded file can hold. *)
Definition scalar (c : N) : Prop :=
  (c < 0x110000)%N ∧ is_surrogate c = false.

(** The texts a file can be read as: decoded code points, with the
    carriage returns translated away. *)
Definition text_ok (s : text) : Prop := Forall (λ c, scalar c ∧ c ≠ CR) s.

End Codec.

(** ** The file system and the world of the script *)

Module FS.
Import Codec.

(** A regular file: its bytes and whether the script may read and write
    it. *)
Record file := File { data : list byte; readable : bool; writable : bool }.

(** A directory lists its entries by name, in the order [os.scandir]
    reports them. *)
Inductive node :=
| Regular (f : file)
| Directory (entries : list (string * node)).

(** A path is kept as the list of names below the top directory ['.']. *)
Abbreviation path := (list string).

(** [os.path.join(root, file)] *)
Definition os_path_join (root : path) (file : string) : path := root ++ [file].

(** The string a path is printed as, e.g. [./a/x.go]. *)
Definition path_text (p : path) : string := String.concat "/" ("." :: p).

Fixpoint assoc (x : string) (es : list (string * node)) : option node :=
  match es with
  | [] => None
  | (y, c) :: es' => if decide (x = y) then Some c else assoc x es'
  end.

(** The node a path leads to. *)
Fixpoint resolve (p : path) (n : node) : option node :=
  match p with
  | [] => Some n
  | x :: p' =>
      match n with
      | Regular _ => None
      | Directory es =>
          match assoc x es with
          | Some c => resolve p' c
          | None => None
          end
      end
  end.

Definition resolve_file (p : path) (n : node) : option file :=
  match resolve p n with
  | Some (Regular f) => Some f
  | _ => None
  end.

Inductive errno := ENOENT | EACCES | EISDIR | ENOTDIR | ENOSPC | EIO.

(** Why a path that does not resolve fails: a component is missing, or a
    component that should be a directory is a regular file. *)
Fixpoint lookup_error (p : path) (n : node) : errno :=
  match p with
  | [] => ENOENT
  | x :: p' =>
      match n with
      | Regular _ => ENOTDIR
      | Directory es =>
          match assoc x es with
          | Some c => lookup_error p' c
          | None => ENOENT
          end
      end
  end.

(** Replace the entry named [x], or add it at the end. *)
Fixpoint set_entry (x : string) (c : node) (es : list (string * node))
  : list (string * node) :=
  match es with
  | [] => [(x, c)]
  | (y, d) :: es' =>
      if decide (x = y) then (y, c) :: es' else (y, d) :: set_entry x c es'
  end.

(** Put the regular file [f] at path [p]; a missing last component is
    created in its directory. *)
Fixpoint put (p : path) (f : file) (n : node) : node :=
  match p with
  | [] => Regular f
  | x :: p' =>
      match n with
      | Regular _ => n
      | Directory es =>
          match assoc x es with
          | Some c => Directory (set_entry x (put p' f c) es)
          | None =>
              match p' with
              | [] => Directory (set_entry x (Regular f) es)
              | _ :: _ => n
              end
          end
      end
  end.

(** Exceptions.  [OSError e p] is the error of an [open] on the path [p];
    [WriteError e] is the [OSError] that [f.write] or the closing of the
    file raises, which names no path.  All are subclasses of [Exception]
    but [KeyboardInterrupt]. *)
Inductive exn :=
| OSError (e : errno) (p : path)
| UnicodeDecodeError
| UnicodeEncodeError
| KeyboardInterrupt
| WriteError (e : errno).

Definition is_Exception (e : exn) : bool :=
  match e with
  | KeyboardInterrupt => false
  | _ => true
  end.

(** What the script meets besides the tree: the paths whose text the
    standard output can encode, the directories that the process may
    list, and the paths at which the device fails on writing, with the
    error and the number of bytes that went through before it. *)
Record system := System {
  encodes : path → bool;
  listable : path → bool;
  write_fault : path → option (errno * nat)
}.

(** The system in which none of this goes wrong. *)
Definition fair : system := System (λ _, true) (λ _, true) (λ _, None).

Inductive mode := R | W.

(** The trace records every [open], with its mode and whether it
    succeeded. *)
Inductive event := Open (m : mode) (p : path) (ok : bool).

(** The lines the script prints. *)
Inductive line :=
| Updated (p : path)
| ErrorUpdating (p : path) (e : exn)
| Summary (n : nat).

Record world := World {
  tree : node;
  stdout : list line;
  trace : list event
}.

Inductive outcome (A : Type) :=
| Return (a : A)
| Raise (e : exn).
Arguments Return {A} a.
Arguments Raise {A} e.

(** Computations that read and change the world and may raise. *)
Definition io (A : Type) : Type := world → outcome A * world.

#[global] Instance io_ret : MRet io := λ A a w, (Return a, w).

#[global] Instance io_bind : MBind io := λ A B k m w,
  match m w with
  | (Return a, w') => k a w'
  | (Raise e, w') => (Raise e, w')
  end.

Definition raise {A} (e : exn) : io A := λ w, (Raise e, w).

(** [try: body except Exception as e: handler e] *)
Definition try_except {A} (body : io A) (handler : exn → io A) : io A := λ w,
  match body w with
  | (Return a, w') => (Return a, w')
  | (Raise e, w') => if is_Exception e then handler e w' else (Raise e, w')
  end.

Definition get_tree : io node := λ w, (Return (tree w), w).

Definition set_tree (n : node) : io unit := λ w,
  (Return (), World n (stdout w) (trace w)).

Definition log (ev : event) : io unit := λ w,
  (Return (), World (tree w) (stdout w) (trace w ++ [ev])).

(** [print(..)]: the line is encoded for the standard output, which
    raises when the path in it cannot be encoded; nothing is printed
    then.  The other characters of the lines are ASCII. *)
Definition line_encodes (sys : system) (l : line) : bool :=
  match l with
  | Updated p | ErrorUpdating p _ => encodes sys p
  | Summary _ => true
  end.

Definition print (sys : system) (l : line) : io unit := λ w,
  if line_encodes sys l
  then (Return (), World (tree w) (stdout w ++ [l]) (trace w))
  else (Raise UnicodeEncodeError, w).

(** [with open(p, 'r', encoding='utf-8') as f: return f.read()] *)
Definition read_text (p : path) : io text :=
  n ← get_tree;
  match resolve p n with
  | Some (Regular f) =>
      if readable f then
        log (Open R p true);;
        match decode_text (data f) with
        | Some s => mret s
        | None => raise UnicodeDecodeError
        end
      else log (Open R p false);; raise (OSError EACCES p)
  | Some (Directory _) => log (Open R p false);; raise (OSError EISDIR p)
  | None => log (Open R p false);; raise (OSError (lookup_error p n) p)
  end.

(** [open(p, 'w', encoding='utf-8')]: an existing file is truncated, a
    missing one is created in an existing directory.  The result is the
    (empty) file now at [p]. *)
Definition open_w (p : path) : io file :=
  n ← get_tree;
  match resolve p n with
  | Some (Regular f) =>
      if writable f then
        let f0 := File [] (readable f) (writable f) in
        log (Open W p true);; set_tree (put p f0 n);; mret f0
      else log (Open W p false);; raise (OSError EACCES p)
  | Some (Directory _) => log (Open W p false);; raise (OSError EISDIR p)
  | None =>
      match resolve (removelast p) n with
      | Some (Directory _) =>
          let f0 := File [] true true in
          log (Open W p true);; set_tree (put p f0 n);; mret f0
      | Some (Regular _) => log (Open W p false);; raise (OSError ENOTDIR p)
      | None => log (Open W p false);; raise (OSError (lookup_error p n) p)
      end
  end.

(** [with open(p, 'w', encoding='utf-8') as f: f.write(s)].  The file is
    open and empty when the text is encoded and its bytes go to the
    device; when the device fails, the bytes that went through stay in
    the file and the error is raised. *)
Definition write_text (sys : system) (pl : platform) (p : path) (s : text)
  : io unit :=
  f0 ← open_w p;
  match encode_text pl s with
  | Some bs =>
      n ← get_tree;
      match write_fault sys p with
      | None => set_tree (put p (File bs (readable f0) (writable f0)) n)
      | Some (e, k) =>
          set_tree (put p (File (take k bs) (readable f0) (writable f0)) n);;
          raise (WriteError e)
      end
  | None => raise UnicodeEncodeError
  end.

Definition is_dir (n : node) : bool :=
  match n with
  | Directory _ => true
  | Regular _ => false
  end.

Definition dirnames (es : list (string * node)) : list string :=
  fst <$> filter (λ e, is_dir (snd e) = true) es.

Definition filenames (es : list (string * node)) : list string :=
  fst <$> filter (λ e, is_dir (snd e) = false) es.

(** [os.walk(top)], top-down: the triple of a directory, then the walks
    of its subdirectories.  Walking something that is not a directory
    yields nothing, and so does walking a directory that cannot be
    listed: the error of [os.scandir] is dropped, as no [onerror] is
    given. *)
Fixpoint os_walk (sys : system) (top : path) (n : node)
  : list (path * list string * list string) :=
  match n with
  | Regular _ => []
  | Directory es =>
      if listable sys top then
        (top, dirnames es, filenames es) ::
        flat_map (λ e, os_walk sys (os_path_join top (fst e)) (snd e)) es
      else []
  end.

(** The tree as the walk sees it: a directory that cannot be listed
    shows no entry. *)
Fixpoint prune (sys : system) (top : path) (n : node) : node :=
  match n with
  | Regular f => Regular f
  | Directory es =>
      if listable sys top then
        Directory
          (map (λ e, (fst e, prune sys (os_path_join top (fst e)) (snd e))) es)
      else Directory []
  end.

(** Every directory from the top down to the one that holds [p] can be
    listed. *)
Definition reachable (sys : system) (p : path) : Prop :=
  ∀ k, k < length p → listable sys (take k p) = true.

(** A triple of the walk, seen from [top]. *)
Definition shift (top : path) (t : path * list string * list string)
  : path * list string * list string :=
  (top ++ t.1.1, t.1.2, t.2).

(** In a tree of a real file system the names of a directory are
    distinct. *)
Fixpoint wf_tree (n : node) : bool :=
  match n with
  | Regular _ => true
  | Directory es =>
      bool_decide (NoDup (map fst es)) && forallb (λ e, wf_tree (snd e)) es
  end.

(** What a tree looks like when the contents of its files are left out:
    the names, the kinds and the permissions. *)
Fixpoint shape (n : node) : node :=
  match n with
  | Regular f => Regular (File [] (readable f) (writable f))
  | Directory es => Directory (map (λ e, (fst e, shape (snd e))) es)
  end.

End FS.

(** ** The script *)

Module Script.
Import Text Codec FS.

(** [s.endswith(suf)] on names *)
Definition endswith (s suf : string) : bool :=
  let n := String.length s in
  let m := String.length suf in
  (m <=? n) && bool_decide (String.substring (n - m) m s = suf).

Section rule.
(** The system and the platform the script runs on, the replacement rule
    and the file extension.  The script fixes the last three; see [OLD],
    [NEW] and [main_on] below. *)
Variable sys : system.
Variable pl : platform.
Variables old new : text.
Variable ext : string.

(** The body of [update_imports_in_file], inside [try]. *)
Definition update_body_in (filepath : path) : io bool :=
  content ← read_text filepath;
  let updated_content := str_replace old new content in
  if bool_decide (updated_content ≠ content) then
    write_text sys pl filepath updated_content;;
    print sys (Updated filepath);;
    mret true
  else mret false.

Definition update_imports_in_file_in (filepath : path) : io bool :=
  try_except (update_body_in filepath)
    (λ e, print sys (ErrorUpdating filepath e);; mret false).

(** The first loop of [main]: the paths of the files whose name ends with
    the extension, in the order of the walk. *)
Definition find_files_in (n : node) : list path :=
  flat_map (λ t : path * list string * list string,
    let '(root, dirs, files) := t in
    flat_map (λ file, if endswith file ext then [os_path_join root file] else [])
             files)
    (os_walk sys [] n).

(** The second loop of [main]. *)
Fixpoint update_all_in (go_files : list path) (updated_count : nat) : io nat :=
  match go_files with
  | [] => mret updated_count
  | go_file :: rest =>
      update_imports_in_file_in go_file ≫= λ b : bool,
      update_all_in rest (if b then updated_count + 1 else updated_count)
  end.

Definition main_in : io unit :=
  n ← get_tree;
  let go_files := find_files_in n in
  updated_count ← update_all_in go_files 0;
  print sys (Summary updated_count).

End rule.

(** The same in the fair system: every path can be printed, every
    directory can be listed, and the device takes what is written. *)
Definition update_body (pl : platform) (old new : text) (filepath : path)
  : io bool := update_body_in fair pl old new filepath.

Definition update_imports_in_file_with (pl : platform) (old new : text)
  (filepath : path) : io bool := update_imports_in_file_in fair pl old new filepath.

Definition find_files (ext : string) (n : node) : list path :=
  find_files_in fair ext n.

Definition update_all (pl : platform) (old new : text) (go_files : list path)
  (updated_count : nat) : io nat :=
  update_all_in fair pl old new go_files updated_count.

Definition main_with (pl : platform) (old new : text) (ext : string) : io unit :=
  main_in fair pl old new ext.

(** What the first loop of [main] adds for one triple of the walk. *)
Definition found (ext : string) (t : path * list string * list string)
  : list path :=
  flat_map (λ file, if endswith file ext then [os_path_join t.1.1 file] else [])
           t.2.

(** The constants of the script. *)
Definition OLD : text := py_str "github.com/lendingplatform/los/services".
Definition NEW : text := py_str "github.com/huuhoait/los-demo/services".

Definition updated_content (content : text) : text :=
  str_replace OLD NEW content.

(** The script in a system, with its constants. *)
Definition update_imports_in_file_on (sys : system) (pl : platform)
  (filepath : path) : io bool :=
  update_imports_in_file_in sys pl OLD NEW filepath.

Definition go_files_on (sys : system) (n : node) : list path :=
  find_files_in sys ".go" n.

Definition main_on (sys : system) (pl : platform) : io unit :=
  main_in sys pl OLD NEW ".go".

(** The script in the fair system. *)
Definition update_imports_in_file (pl : platform) (filepath : path) : io bool :=
  update_imports_in_file_with pl OLD NEW filepath.

Definition go_files (n : node) : list path := find_files ".go" n.

Definition main (pl : platform) : io unit := main_with pl OLD NEW ".go".

(** A run from a given tree, with nothing printed or opened yet. *)
Definition start (n : node) : world := World n [] [].

Definition run (pl : platform) (n : node) : world := snd (main pl (start n)).

(** The text of a printed line.  [str_exn] is the interpreter's message
    for an exception. *)
Definition render (str_exn : exn → string) (l : line) : string :=
  match l with
  | Updated p => "Updated: " +:+ path_text p
  | ErrorUpdating p e => "Error updating " +:+ path_text p +:+ ": " +:+ str_exn e
  | Summary n =>
      "Updated " +:+ NilEmpty.string_of_uint (Nat.to_uint n) +:+ " files"
  end.

(** The bytes of the two constants in a file. *)
Definition OLD_bytes : list byte :=
  list_byte_of_string "github.com/lendingplatform/los/services".
Definition NEW_bytes : list byte :=
  list_byte_of_string "github.com/huuhoait/los-demo/services".

End Script.

(** ** How the processing of a file ends

    The cases of [update_imports_in_file], read off its code, and what a
    sequence of calls does to the world.  They serve to reason on the
    script; the script itself is [Script.update_imports_in_file] and
    [Script.main]. *)

Module Outcome.
Import Text Codec FS Script.

Inductive verdict :=
| NoAccess (e : errno)      (* [open(.., 'r')] raised *)
| Undecodable               (* [f.read()] raised *)
| Unchanged                 (* the new text equals the old one *)
| Denied (e : errno)        (* [open(.., 'w')] raised *)
| Unencodable (f0 : file)   (* [f.write(..)] raised, the file is truncated *)
| Rewritten (f' : file).    (* the file was written *)

Section rule.
Variable pl : platform.
Variables old new : text.

Definition file_verdict (f : file) : verdict :=
  if readable f then
    match decode_text (data f) with
    | None => Undecodable
    | Some content =>
        if bool_decide (str_replace old new content ≠ content) then
          if writable f then
            match encode_text pl (str_replace old new content) with
            | Some bs => Rewritten (File bs (readable f) (writable f))
            | None => Unencodable (File [] (readable f) (writable f))
            end
          else Denied EACCES
        else Unchanged
    end
  else NoAccess EACCES.

Definition verdict_of (p : path) (n : node) : verdict :=
  match resolve p n with
  | Some (Regular f) => file_verdict f
  | Some (Directory _) => NoAccess EISDIR
  | None => NoAccess (lookup_error p n)
  end.

Definition verdict_result (v : verdict) : bool :=
  match v with
  | Rewritten _ => true
  | _ => false
  end.

Definition verdict_tree (p : path) (v : verdict) (n : node) : node :=
  match v with
  | Rewritten f' | Unencodable f' => put p f' n
  | _ => n
  end.

(** The exception the body of the call raises, if any. *)
Definition verdict_exn (p : path) (v : verdict) : option exn :=
  match v with
  | NoAccess e | Denied e => Some (OSError e p)
  | Undecodable => Some UnicodeDecodeError
  | Unencodable _ => Some UnicodeEncodeError
  | Unchanged | Rewritten _ => None
  end.

Definition verdict_lines (p : path) (v : verdict) : list line :=
  match verdict_exn p v with
  | Some e => [ErrorUpdating p e]
  | None => if verdict_result v then [Updated p] else []
  end.

Definition verdict_events (p : path) (v : verdict) : list event :=
  match v with
  | NoAccess _ => [Open R p false]
  | Undecodable | Unchanged => [Open R p true]
  | Denied _ => [Open R p true; Open W p false]
  | Unencodable _ | Rewritten _ => [Open R p true; Open W p true]
  end.

(** The file a call leaves where it found [f]. *)
Definition rewrite (f : file) : file :=
  match file_verdict f with
  | Rewritten f' | Unencodable f' => f'
  | _ => f
  end.

(** The verdicts of a sequence of calls, each on the tree the calls before
    it left. *)
Fixpoint verdicts (ps : list path) (n : node) : list (path * verdict) :=
  match ps with
  | [] => []
  | p :: ps' =>
      let v := verdict_of p n in
      (p, v) :: verdicts ps' (verdict_tree p v n)
  end.

Fixpoint tree_after (ps : list path) (n : node) : node :=
  match ps with
  | [] => n
  | p :: ps' => tree_after ps' (verdict_tree p (verdict_of p n) n)
  end.

End rule.

(** *** In a system

    The verdict is what the file alone decides.  In a system, the device
    can cut a write short and the standard output can refuse a line. *)

Section system.
Variable sys : system.

(** The file left by a write that the device cut after [k] bytes. *)
Definition cut (k : nat) (f' : file) : file :=
  File (take k (data f')) (readable f') (writable f').

(** The exception the body of the call raises, if any. *)
Definition body_exn (p : path) (v : verdict) : option exn :=
  match v with
  | Rewritten _ =>
      match write_fault sys p with
      | Some (e, _) => Some (WriteError e)
      | None => if encodes sys p then None else Some UnicodeEncodeError
      end
  | _ => verdict_exn p v
  end.

(** The tree the call leaves. *)
Definition call_tree (p : path) (v : verdict) (n : node) : node :=
  match v with
  | Rewritten f' =>
      match write_fault sys p with
      | Some (_, k) => put p (cut k f') n
      | None => put p f' n
      end
  | _ => verdict_tree p v n
  end.

(** What the call returns, or the exception that leaves it: the one that
    printing the error line raises. *)
Definition call_outcome (p : path) (v : verdict) : outcome bool :=
  match body_exn p v with
  | None => Return (verdict_result v)
  | Some _ => if encodes sys p then Return false else Raise UnicodeEncodeError
  end.

Definition call_lines (p : path) (v : verdict) : list line :=
  match body_exn p v with
  | None => if verdict_result v then [Updated p] else []
  | Some e => if encodes sys p then [ErrorUpdating p e] else []
  end.

End system.

(** A system is clean on a path when the standard output can encode the
    path and the device does not fail on writing there. *)
Definition clean (sys : system) (p : path) : Prop :=
  encodes sys p = true ∧ write_fault sys p = None.

Definition lines_of (vs : list (path * verdict)) : list line :=
  flat_map (λ pv, verdict_lines (fst pv) (snd pv)) vs.

Definition events_of (vs : list (path * verdict)) : list event :=
  flat_map (λ pv, verdict_events (fst pv) (snd pv)) vs.

Definition rewritten_paths (vs : list (path * verdict)) : list path :=
  flat_map (λ pv, if verdict_result (snd pv) then [fst pv] else []) vs.

(** The paths of the [Updated: ...] lines, in the order printed. *)
Definition updated_paths (ls : list line) : list path :=
  flat_map (λ l, match l with Updated p => [p] | _ => [] end) ls.

(** The paths opened for writing with success, in the order opened. *)
Definition written (evs : list event) : list path :=
  flat_map (λ ev, match ev with Open W p true => [p] | _ => [] end) evs.

(** The paths opened for reading, with or without success, in the order
    opened. *)
Definition reads (evs : list event) : list path :=
  flat_map (λ ev, match ev with Open R p _ => [p] | _ => [] end) evs.

(** The verdicts of a run of the script. *)
Definition run_verdicts (pl : platform) (n : node) : list (path * verdict) :=
  verdicts pl OLD NEW (go_files n) n.

(** A call of the script tries to open its file for writing when the text
    it read changes under the replacement. *)
Definition wants_write (f : file) : Prop :=
  readable f = true
  ∧ ∃ c, decode_text (data f) = Some c ∧ updated_content c ≠ c.

End Outcome.

(** ** Some trees *)

Module Trees.
Import Codec FS Script.

Definition plain (bs : list byte) : node := Regular (File bs true true).



(** The scenario of the specification, with its own rule and extension. *)
Definition scenario : node :=
  Directory
    [("a", Directory [("x.ext", plain (list_byte_of_string "prefix_old/pkg"))]);
     ("b", Directory [("y.ext", plain (list_byte_of_string "unrelated"))]);
     ("c", Directory [("z.txt", plain (list_byte_of_string "prefix_old/pkg"))])].

Definition scenario_after : node :=
  Directory
    [("a", Directory [("x.ext", plain (list_byte_of_string "prefix_new/pkg"))]);
     ("b", Directory [("y.ext", plain (list_byte_of_string "unrelated"))]);
     ("c", Directory [("z.txt", plain (list_byte_of_string "prefix_old/pkg"))])].

(** The same scenario with the rule and the extension of the script. *)
Definition go_scenario : node :=
  Directory
    [("a", Directory [("x.go", plain (OLD_bytes ++ list_byte_of_string "/pkg"))]);
     ("b", Directory [("y.go", plain (list_byte_of_string "unrelated"))]);
     ("c", Directory [("z.txt", plain (OLD_bytes ++ list_byte_of_string "/pkg"))])].

Definition go_scenario_after : node :=
  Directory
    [("a", Directory [("x.go", plain (NEW_bytes ++ list_byte_of_string "/pkg"))]);
     ("b", Directory [("y.go", plain (list_byte_of_string "unrelated"))]);
     ("c", Directory [("z.txt", plain (OLD_bytes ++ list_byte_of_string "/pkg"))])].

(** A tree with a file that is not UTF-8, a file that may not be written,
    and a file that can be updated. *)
Definition mixed : node :=
  Directory
    [("bad.go", plain [xff]);
     ("ro.go", Regular (File OLD_bytes true false));
     ("sub", Directory [("ok.go", plain OLD_bytes);
                        ("notes.txt", plain OLD_bytes)])].



(** A name that is UTF-8 text.  A name that is not reaches the script
    with a lone surrogate in it, which a standard output in UTF-8 does
    not encode. *)
Definition utf8_name (name : string) : bool :=
  match utf8_decode (list_byte_of_string name) with
  | Some _ => true
  | None => false
  end.

(** A system whose standard output encodes the paths made of UTF-8 names,
    and in which nothing else goes wrong. *)
Definition utf8_stdout : system :=
  System (forallb utf8_name) (λ _, true) (λ _, None).

(** A Go file name that starts with the byte [ff]. *)
Definition odd_name : string := String (ascii_of_byte xff) ".go".


(** A file with that name that holds the old path. *)
Definition odd_file : node := Directory [(odd_name, plain OLD_bytes)].

(** The fair system but for the directory [sub], which cannot be
    listed. *)
Definition sub_locked : system :=
  System (λ _, true) (λ p, bool_decide (p ≠ ["sub"])) (λ _, None).


End Trees.


(** * Properties *)

(** ** Searching and replacing in strings *)

Module TextFacts.
Import Text.
Section text.
Context {A : Type} `{EqDecision A}.
Implicit Types (s pat old new r : list A) (i j : nat).


Lemma starts_with_prefix pat s :
  starts_with pat s = true ↔ ∃ r, s = pat ++ r.
Proof.
  revert s. induction pat as [|a pat IH]; intros s; simpl.
  - split; eauto.
  - destruct s as [|b s].
    + split; [done | intros [r Hr]; discriminate].
    + rewrite andb_true_iff, bool_decide_eq_true, IH. split.
      * intros [-> [r ->]]. eauto.
      * intros [r Hr]. injection Hr as -> ->. eauto.
Qed.

Lemma starts_with_app pat r : starts_with pat (pat ++ r) = true.
Proof. apply starts_with_prefix. eauto. Qed.

Lemma occurs_at_0 pat s : occurs_at pat s 0 ↔ starts_with pat s = true.
Proof.
  rewrite starts_with_prefix. split.
  - intros (a & b & -> & Ha). destruct a; [|done]. eauto.
  - intros [r ->]. exists [], r. done.
Qed.

Lemma occurs_at_S pat c s i : occurs_at pat (c :: s) (S i) ↔ occurs_at pat s i.
Proof.
  split.
  - intros (a & b & Hs & Ha). destruct a as [|c' a]; [done|].
    injection Hs as -> ->. injection Ha as Ha. exists a, b. done.
  - intros (a & b & -> & Ha). exists (c :: a), b. simpl. auto.
Qed.

Lemma occurs_at_drop pat s i :
  occurs_at pat s i ↔ i ≤ length s ∧ starts_with pat (drop i s) = true.
Proof.
  revert s. induction i as [|i IH]; intros s.
  - rewrite occurs_at_0, drop_0. split; [|tauto]. split; [lia | done].
  - destruct s as [|c s].
    + split.
      * intros (a & b & Hs & Ha). destruct a; done.
      * simpl. lia.
    + rewrite occurs_at_S, IH. simpl. split; intros [? ?]; split; auto; lia.
Qed.

Lemma occurs_at_app_l pat a s i :
  occurs_at pat s i → occurs_at pat (a ++ s) (length a + i).
Proof.
  intros (a' & b & -> & <-). exists (a ++ a'), b.
  by rewrite <-(assoc_L (++)), length_app.
Qed.

Lemma occurs_at_bound pat s i : occurs_at pat s i → i + length pat ≤ length s.
Proof. intros (a & b & -> & <-). rewrite !length_app. lia. Qed.

Lemma find_Some pat s i :
  find pat s = Some i →
  occurs_at pat s i ∧ ∀ j, occurs_at pat s j → i ≤ j.
Proof.
  revert i. induction s as [|c s IH]; intros i; simpl.
  - destruct (starts_with pat []) eqn:E; [|done].
    intros [= <-]. split; [by apply occurs_at_0 | intros; lia].
  - destruct (starts_with pat (c :: s)) eqn:E.
    + intros [= <-]. split; [by apply occurs_at_0 | intros; lia].
    + destruct (find pat s) as [k|] eqn:Ek; [|done].
      intros [= <-]. destruct (IH k eq_refl) as [Hk Hmin]. split.
      * by apply occurs_at_S.
      * intros [|j] Hj.
        -- apply occurs_at_0 in Hj. congruence.
        -- apply occurs_at_S, Hmin in Hj. lia.
Qed.

Lemma find_None pat s : find pat s = None ↔ ¬ occurs pat s.
Proof.
  induction s as [|c s IH]; simpl.
  - destruct (starts_with pat []) eqn:E.
    + split; [done|]. intros []. exists 0. by apply occurs_at_0.
    + split; [|done]. intros _ [i Hi].
      apply occurs_at_drop in Hi as [Hi1 Hi2]. simpl in Hi1.
      replace i with 0 in Hi2 by lia. simpl in Hi2. congruence.
  - destruct (starts_with pat (c :: s)) eqn:E.
    + split; [done|]. intros []. exists 0. by apply occurs_at_0.
    + destruct (find pat s) as [k|] eqn:Ek; simpl.
      * split; [done|]. intros []. destruct (find_Some _ _ _ Ek) as [Hk _].
        exists (S k). by apply occurs_at_S.
      * split; [|done]. intros _ [[|i] Hi].
        -- apply occurs_at_0 in Hi. congruence.
        -- apply occurs_at_S in Hi. apply IH; [done | by exists i].
Qed.

Lemma find_is_Some pat s : occurs pat s → ∃ i, find pat s = Some i.
Proof.
  intros H. destruct (find pat s) eqn:E; [eauto|].
  by apply find_None in E.
Qed.

Lemma occurs_at_app_r pat a s i :
  occurs_at pat (a ++ s) i → length a ≤ i → occurs_at pat s (i - length a).
Proof.
  intros [Hi Hs]%occurs_at_drop Hle. apply occurs_at_drop.
  rewrite length_app in Hi. rewrite drop_app_ge in Hs by done.
  split; [lia | done].
Qed.

Lemma occurs_at_inside pat a b i :
  occurs_at pat (a ++ b) i → i + length pat ≤ length a → occurs_at pat a i.
Proof.
  intros (u & v & Huv & <-) Hle.
  exists u, (take (length a - length u - length pat) v). split; [|done].
  apply (f_equal (take (length a))) in Huv.
  rewrite take_app_length in Huv. rewrite Huv at 1.
  rewrite !take_app, (take_ge u), (take_ge pat) by lia.
  repeat f_equal; lia.
Qed.

Lemma compatible_sym s r : compatible s r = compatible r s.
Proof.
  revert r. induction s as [|a s IH]; intros [|b r]; simpl; try done.
  rewrite IH. f_equal. apply bool_decide_ext. naive_solver.
Qed.

Lemma starts_with_compatible pat a b :
  starts_with pat (a ++ b) = true → compatible a pat = true.
Proof.
  revert a. induction pat as [|x pat IH]; intros [|y a]; simpl; try done.
  rewrite !andb_true_iff, !bool_decide_eq_true. intros [-> H]. split; eauto.
Qed.

Lemma starts_with_drop pat a b :
  starts_with pat (a ++ b) = true → length a ≤ length pat →
  starts_with (drop (length a) pat) b = true.
Proof.
  revert a. induction pat as [|x pat IH]; intros [|y a]; simpl; try done.
  all: try (intros ? ?; simpl in *; lia).
  rewrite andb_true_iff. intros [_ H] Hle. apply IH; [done | lia].
Qed.

(** Where an occurrence of [pat] in [pre ++ x ++ rest] can lie: inside
    [pre], across the border of [pre] and [x], from inside [x], or in
    [rest]. *)
Lemma occurs_at_sandwich pat pre x rest p :
  occurs_at pat (pre ++ x ++ rest) p →
  (p + length pat ≤ length pre ∧ occurs_at pat pre p)
  ∨ (p < length pre < p + length pat
     ∧ compatible (drop (length pre - p) pat) x = true)
  ∨ (length pre ≤ p < length pre + length x
     ∧ compatible (drop (p - length pre) x) pat = true)
  ∨ (length pre + length x ≤ p
     ∧ occurs_at pat rest (p - length pre - length x)).
Proof.
  intros Hp.
  destruct (decide (p + length pat ≤ length pre)) as [H1|H1].
  { left. split; [done|]. by eapply occurs_at_inside. }
  destruct (decide (p < length pre)) as [H2|H2].
  { right; left. split; [lia|].
    apply occurs_at_drop in Hp as [_ Hp]. rewrite drop_app_le in Hp by lia.
    apply starts_with_drop in Hp; rewrite length_drop in *; [|lia].
    rewrite compatible_sym. by eapply starts_with_compatible. }
  destruct (decide (p < length pre + length x)) as [H3|H3].
  { right; right; left. split; [lia|].
    apply occurs_at_app_r in Hp; [|lia].
    apply occurs_at_drop in Hp as [_ Hp]. rewrite drop_app_le in Hp by lia.
    by eapply starts_with_compatible. }
  right; right; right. split; [lia|].
  apply occurs_at_app_r in Hp; [|lia].
  apply occurs_at_app_r in Hp; [|lia]. done.
Qed.

End text.
End TextFacts.


Module ReplaceFacts.
Import Text TextFacts.
Section replace.
Context {A : Type} `{EqDecision A}.
Implicit Types (s pat old new r : list A) (i j k : nat).

Lemma find_Some_split pat s i :
  find pat s = Some i →
  s = take i s ++ pat ++ drop (i + length pat) s.
Proof.
  intros [(a & b & -> & <-) _]%find_Some.
  rewrite take_app_length. do 2 f_equal.
  rewrite (assoc_L (++)), drop_app_length'; [done|].
  by rewrite length_app.
Qed.

(** The loop of [str.replace], given enough fuel, performs the
    left-to-right pass. *)
Lemma replace_loop_ltr old new fuel s :
  old ≠ [] → length s ≤ fuel →
  replaced_ltr old new s (replace_loop fuel old new s).
Proof.
  intros Hold. revert s. induction fuel as [|fuel IH]; intros s Hlen; simpl.
  - constructor. intros [i Hi]. apply occurs_at_bound in Hi.
    destruct old; [done|]. simpl in Hi. lia.
  - destruct (find old s) as [i|] eqn:Hf.
    + pose proof (find_Some_split _ _ _ Hf) as Hs.
      destruct (find_Some _ _ _ Hf) as [Hi Hmin].
      assert (length (take i s) = i) as Hti.
      { apply occurs_at_bound in Hi. rewrite length_take. lia. }
      rewrite Hs at 1. constructor.
      * rewrite <-Hs. intros j Hj. rewrite Hti. by apply Hmin.
      * apply IH. apply occurs_at_bound in Hi. rewrite length_drop.
        destruct old; [done|]. simpl in *. lia.
    + constructor. by apply find_None.
Qed.

Lemma str_replace_ltr old new s :
  old ≠ [] → replaced_ltr old new s (str_replace old new s).
Proof.
  intros Hold. unfold str_replace. destruct old as [|a old]; [done|].
  by apply replace_loop_ltr.
Qed.

(** The left-to-right pass has one result. *)
Lemma replaced_ltr_det old new s r r' :
  replaced_ltr old new s r → replaced_ltr old new s r' → r = r'.
Proof.
  intros H. revert r'. induction H as [s Hno|pre rest r Hmin H IH]; intros r' H'.
  - inversion H' as [|pre' rest' r'' _ _ Heq]; [done|]. subst.
    destruct Hno. exists (length pre'). by exists pre', rest'.
  - inversion H' as [s' Hno|pre' rest' r'' Hmin' H'' Heq]; subst.
    + destruct Hno. exists (length pre). by exists pre, rest.
    + assert (length pre = length pre') as Hlen.
      { apply Nat.le_antisymm.
        - apply Hmin. rewrite <-Heq. by exists pre', rest'.
        - apply Hmin'. rewrite Heq. by exists pre, rest. }
      apply app_inj_1 in Heq as [-> Heq]; [|done].
      apply app_inv_head in Heq as ->. f_equal. f_equal. by apply IH.
Qed.

Lemma replaced_ltr_str_replace old new s r :
  old ≠ [] → replaced_ltr old new s r → r = str_replace old new s.
Proof.
  intros Hold H. eapply replaced_ltr_det; [done|]. by apply str_replace_ltr.
Qed.

Lemma replaced_ltr_Forall (P : A → Prop) old new s r :
  Forall P new → replaced_ltr old new s r → Forall P s → Forall P r.
Proof.
  intros Hnew. induction 1 as [|pre rest r _ _ IH]; [done|].
  rewrite !Forall_app. intros (? & ? & ?). auto.
Qed.

Lemma replaced_ltr_same old new s r :
  replaced_ltr old new s r → ¬ occurs old s → r = s.
Proof.
  intros H Hno. eapply replaced_ltr_det; [done|]. by constructor.
Qed.

Lemma replaced_ltr_changed old new s r :
  replaced_ltr old new s r → r ≠ s → occurs old s.
Proof.
  intros H Hne. destruct (find old s) as [i|] eqn:Hf.
  - exists i. by apply find_Some.
  - destruct Hne. eapply replaced_ltr_same; [done|]. by apply find_None.
Qed.

Lemma join_cons sep g (segs : list (list A)) :
  segs ≠ [] → join sep (g :: segs) = g ++ sep ++ join sep segs.
Proof. by destruct segs. Qed.

(** The pass cuts the text at the occurrences it replaces: the pieces
    between them are the same before and after. *)
Lemma replaced_ltr_join old new s r :
  old ≠ [] → replaced_ltr old new s r →
  ∃ segs, segs ≠ [] ∧ s = join old segs ∧ r = join new segs
          ∧ Forall (λ g, ¬ occurs old g) segs.
Proof.
  intros Hold. induction 1 as [s Hno|pre rest r Hmin _ IH].
  - exists [s]. repeat split; [done|]. by constructor.
  - destruct IH as (segs & Hne & -> & -> & Hall).
    exists (pre :: segs). rewrite !join_cons by done.
    repeat split; [done|]. constructor; [|done].
    intros [j (a & b & -> & <-)].
    assert (length (a ++ old ++ b) ≤ length a) as Hle.
    { apply Hmin. exists a, (b ++ old ++ join old segs).
      by rewrite <-!(assoc_L (++)). }
    rewrite !length_app in Hle. destruct old; [done | simpl in Hle; lia].
Qed.

Lemma no_overlap_new old new k :
  no_overlap old new = true → k < length new →
  compatible (drop k new) old = false.
Proof.
  unfold no_overlap. rewrite andb_true_iff, !forallb_forall.
  intros [H _] Hk. apply negb_true_iff, H, in_seq. lia.
Qed.

Lemma no_overlap_old old new k :
  no_overlap old new = true → 0 < k < length old →
  compatible (drop k old) new = false.
Proof.
  unfold no_overlap. rewrite andb_true_iff, !forallb_forall.
  intros [_ H] Hk. apply negb_true_iff, H, in_seq. lia.
Qed.

Lemma unbordered_spec old k :
  unbordered old = true → 0 < k < length old →
  compatible (drop k old) old = false.
Proof.
  unfold unbordered. rewrite forallb_forall.
  intros H Hk. apply negb_true_iff, H, in_seq. lia.
Qed.

(** When [old] and [new] do not overlap, the pass leaves no occurrence of
    [old] behind. *)
Lemma replaced_ltr_clean old new s r :
  no_overlap old new = true → old ≠ [] →
  replaced_ltr old new s r → ¬ occurs old r.
Proof.
  intros Hov Hold. induction 1 as [s Hno|pre rest r Hmin _ IH]; [done|].
  intros [p Hp].
  apply occurs_at_sandwich in Hp as [[Hle Hp]|[[Hlt Hc]|[[Hlt Hc]|[_ Hp]]]].
  - pose proof (occurs_at_bound _ _ _ Hp).
    assert (length pre ≤ p); [|destruct old; simpl in *; [done | lia]].
    apply Hmin. destruct Hp as (a & b & -> & <-).
    exists a, (b ++ old ++ rest). by rewrite <-!(assoc_L (++)).
  - rewrite (no_overlap_old old new) in Hc; [done | done | lia].
  - rewrite (no_overlap_new old new) in Hc; [done | done | lia].
  - apply IH. by eexists.
Qed.

Lemma junction_cons sep g (segs : list (list A)) k :
  S k < length (g :: segs) →
  junction sep (g :: segs) (S k) = length g + length sep + junction sep segs k.
Proof.
  unfold junction. intros Hk. simpl in Hk.
  change (take (S (S k)) (g :: segs)) with (g :: take (S k) segs).
  rewrite join_cons, !length_app; [lia|].
  destruct segs; simpl in *; [lia | done].
Qed.

(** A separator stands at each junction of a joined string. *)
Lemma occurs_at_junction sep (segs : list (list A)) k :
  S k < length segs → occurs_at sep (join sep segs) (junction sep segs k).
Proof.
  revert k. induction segs as [|g segs IH]; intros k Hk; simpl in Hk; [lia|].
  rewrite join_cons by (destruct segs; simpl in *; [lia | done]).
  destruct k as [|k].
  - exists g, (join sep segs). split; [done|].
    unfold junction. by destruct segs.
  - rewrite junction_cons by (simpl; lia).
    rewrite <-Nat.add_assoc.
    apply occurs_at_app_l, occurs_at_app_l, IH. lia.
Qed.

(** When [old] has no border, it occurs in a string joined with [old]
    from pieces free of [old] at the junctions only. *)
Lemma occurs_at_join_only old (segs : list (list A)) i :
  unbordered old = true → old ≠ [] →
  Forall (λ g, ¬ occurs old g) segs →
  occurs_at old (join old segs) i →
  ∃ k, S k < length segs ∧ i = junction old segs k.
Proof.
  intros Hub Hold Hall. revert i.
  induction Hall as [|g segs Hg Hall IH]; intros i Hi.
  - apply occurs_at_bound in Hi. destruct old; simpl in *; [done | lia].
  - destruct (decide (segs = [])) as [->|Hne].
    { destruct Hg. by exists i. }
    rewrite join_cons in Hi by done.
    apply occurs_at_sandwich in Hi as [[_ Hi]|[[Hlt Hc]|[[Hlt Hc]|[Hle Hi]]]].
    + destruct Hg. by exists i.
    + rewrite unbordered_spec in Hc; [done | done | lia].
    + destruct (decide (i = length g)) as [->|Hne'].
      * exists 0. split; [destruct segs; simpl in *; [done | lia]|].
        unfold junction. by destruct segs.
      * rewrite unbordered_spec in Hc; [done | done | lia].
    + apply IH in Hi as (k & Hk & Hi). exists (S k). split; [simpl; lia|].
      rewrite junction_cons by (simpl; lia). lia.
Qed.


End replace.
End ReplaceFacts.


(** ** The UTF-8 codec and the newline translation *)

Module CodecFacts.
Import Text TextFacts ReplaceFacts Codec.

(** Linear arithmetic with division and remainder by constants. *)
Ltac div_lia := zify; Z.to_euclidean_division_equations; lia.

(** Decide the comparisons of the goal from the hypotheses. *)
Ltac decide_tests :=
  repeat match goal with
  | |- context [(?a <? ?b)%N] =>
      first [ replace (a <? b)%N with true by (symmetry; apply N.ltb_lt; div_lia)
            | replace (a <? b)%N with false by (symmetry; apply N.ltb_ge; div_lia) ]
  | |- context [(?a <=? ?b)%N] =>
      first [ replace (a <=? b)%N with true by (symmetry; apply N.leb_le; div_lia)
            | replace (a <=? b)%N with false by (symmetry; apply N.leb_gt; div_lia) ]
  end.

Lemma to_N_byte_of n : (n < 256)%N → Byte.to_N (byte_of n) = n.
Proof.
  intros Hn. unfold byte_of. destruct (Byte.of_N n) as [b|] eqn:E; simpl.
  - by apply Byte.to_of_N.
  - apply Byte.of_N_None_iff in E. lia.
Qed.

Lemma byte_of_to_N b : byte_of (Byte.to_N b) = b.
Proof. unfold byte_of. by rewrite Byte.of_to_N. Qed.

Lemma to_N_lt b : (Byte.to_N b < 256)%N.
Proof. pose proof (Byte.to_N_bounded b). lia. Qed.

Lemma encode_char_scalar c bs : encode_char c = Some bs → scalar c.
Proof.
  unfold encode_char, scalar, is_surrogate.
  repeat (case_match; try done); intros _;
    repeat match goal with
    | H : (_ <? _)%N = true |- _ => apply N.ltb_lt in H
    | H : (_ <? _)%N = false |- _ => apply N.ltb_ge in H
    end; (split; [lia|]); try done.
  all: apply andb_false_iff; rewrite N.leb_gt; first [left; lia | right; rewrite N.leb_gt; lia].
Qed.

Lemma scalar_encode_char c : scalar c → is_Some (encode_char c).
Proof.
  intros [Hc Hs]. unfold encode_char. rewrite Hs.
  repeat case_match; try done. apply N.ltb_ge in H2. lia.
Qed.

(** Decoding reads back an encoded character. *)
Lemma utf8_decode_encode_char c bs rest :
  encode_char c = Some bs →
  utf8_decode (bs ++ rest) = cons c <$> utf8_decode rest.
Proof.
  unfold encode_char, is_surrogate.
  destruct (N.ltb_spec c 0x80) as [H1|H1].
  { intros [= <-]. simpl. rewrite to_N_byte_of by lia. by decide_tests. }
  destruct (N.ltb_spec c 0x800) as [H2|H2].
  { intros [= <-]. simpl. rewrite !to_N_byte_of by div_lia.
    unfold is_cont. decide_tests. simpl. do 2 f_equal. div_lia. }
  destruct (N.ltb_spec c 0x10000) as [H3|H3].
  { destruct (N.leb_spec 0xD800 c) as [H4|H4];
      [destruct (N.leb_spec c 0xDFFF) as [H5|H5]|]; simpl; [done|..];
      intros [= <-]; simpl; rewrite !to_N_byte_of by div_lia;
      unfold is_cont, is_surrogate; decide_tests; simpl;
      match goal with |- context [cons ?x <$> _] =>
        replace x with c by div_lia end;
      decide_tests; done. }
  destruct (N.ltb_spec c 0x110000) as [H4|H4]; [|done].
  intros [= <-]. simpl. rewrite !to_N_byte_of by div_lia.
  unfold is_cont. decide_tests. simpl.
  match goal with |- context [cons ?x <$> _] =>
    replace x with c by div_lia end.
  by decide_tests.
Qed.

Lemma utf8_decode_encode s bs :
  utf8_encode s = Some bs → utf8_decode bs = Some s.
Proof.
  revert bs. induction s as [|c s IH]; intros bs; simpl.
  - by intros [= <-].
  - destruct (encode_char c) as [enc|] eqn:Hc; [|done].
    destruct (utf8_encode s) as [rest|]; [|done].
    intros [= <-]. rewrite (utf8_decode_encode_char c) by done.
    by rewrite (IH rest).
Qed.

Lemma is_cont_spec n : is_cont n = true ↔ (0x80 ≤ n ≤ 0xBF)%N.
Proof. unfold is_cont. rewrite andb_true_iff, !N.leb_le. done. Qed.

Lemma is_surrogate_false c :
  is_surrogate c = false ↔ (c < 0xD800 ∨ 0xDFFF < c)%N.
Proof.
  unfold is_surrogate. rewrite andb_false_iff, !N.leb_gt. done.
Qed.

(** The bytes of a well-formed sequence are the encoding of the character
    they decode to. *)
Lemma encode_char_1 b0 :
  (Byte.to_N b0 < 0x80)%N → encode_char (Byte.to_N b0) = Some [b0].
Proof.
  intros H. unfold encode_char. decide_tests. by rewrite byte_of_to_N.
Qed.

Lemma encode_char_2 b0 b1 :
  let n0 := Byte.to_N b0 in
  let n1 := Byte.to_N b1 in
  (0xC2 ≤ n0 ≤ 0xDF)%N → is_cont n1 = true →
  encode_char ((n0 - 0xC0) * 64 + (n1 - 0x80))%N = Some [b0; b1].
Proof.
  intros n0 n1 H0 H1%is_cont_spec. unfold encode_char. decide_tests.
  match goal with |- Some [byte_of ?x0; byte_of ?x1] = _ =>
    replace x0 with n0 by div_lia; replace x1 with n1 by div_lia end.
  subst n0 n1. by rewrite !byte_of_to_N.
Qed.

Lemma encode_char_3 b0 b1 b2 :
  let n0 := Byte.to_N b0 in
  let n1 := Byte.to_N b1 in
  let n2 := Byte.to_N b2 in
  let c := ((n0 - 0xE0) * 4096 + (n1 - 0x80) * 64 + (n2 - 0x80))%N in
  (0xE0 ≤ n0 ≤ 0xEF)%N → is_cont n1 = true → is_cont n2 = true →
  (c <? 0x800)%N || is_surrogate c = false →
  encode_char c = Some [b0; b1; b2].
Proof.
  intros n0 n1 n2 c H0 H1%is_cont_spec H2%is_cont_spec.
  rewrite orb_false_iff, N.ltb_ge. intros [Hc Hs].
  unfold encode_char. rewrite Hs. subst c. decide_tests.
  match goal with |- Some [byte_of ?x0; byte_of ?x1; byte_of ?x2] = _ =>
    replace x0 with n0 by div_lia; replace x1 with n1 by div_lia;
    replace x2 with n2 by div_lia end.
  subst n0 n1 n2. by rewrite !byte_of_to_N.
Qed.

Lemma encode_char_4 b0 b1 b2 b3 :
  let n0 := Byte.to_N b0 in
  let n1 := Byte.to_N b1 in
  let n2 := Byte.to_N b2 in
  let n3 := Byte.to_N b3 in
  let c := ((n0 - 0xF0) * 262144 + (n1 - 0x80) * 4096
            + (n2 - 0x80) * 64 + (n3 - 0x80))%N in
  (0xF0 ≤ n0 ≤ 0xF4)%N →
  is_cont n1 = true → is_cont n2 = true → is_cont n3 = true →
  ((c <? 0x10000) || (0x10FFFF <? c))%N = false →
  encode_char c = Some [b0; b1; b2; b3].
Proof.
  intros n0 n1 n2 n3 c H0 H1%is_cont_spec H2%is_cont_spec H3%is_cont_spec.
  rewrite orb_false_iff, !N.ltb_ge. intros [Hc Hc'].
  unfold encode_char. subst c. decide_tests.
  match goal with
  |- Some [byte_of ?x0; byte_of ?x1; byte_of ?x2; byte_of ?x3] = _ =>
    replace x0 with n0 by div_lia; replace x1 with n1 by div_lia;
    replace x2 with n2 by div_lia; replace x3 with n3 by div_lia end.
  subst n0 n1 n2 n3. by rewrite !byte_of_to_N.
Qed.

Lemma utf8_encode_cons c enc s rest :
  encode_char c = Some enc → utf8_encode s = Some rest →
  utf8_encode (c :: s) = Some (enc ++ rest).
Proof. intros Hc Hs. simpl. by rewrite Hc, Hs. Qed.

(** Encoding gives back the bytes a text was decoded from. *)
Lemma utf8_encode_decode bs s :
  utf8_decode bs = Some s → utf8_encode s = Some bs.
Proof.
  remember (length bs) as n eqn:Hn. revert bs s Hn.
  induction n as [n IH] using lt_wf_ind. intros bs s ->.
  assert (∀ r s', length r < length bs → utf8_decode r = Some s' →
                  utf8_encode s' = Some r) as IH'.
  { intros r s' Hr. by eapply IH. }
  clear IH. destruct bs as [|b0 r0]; simpl.
  { by intros [= <-]. }
  destruct (N.ltb_spec (Byte.to_N b0) 0x80) as [H0|H0].
  { destruct (utf8_decode r0) as [s0|] eqn:E0; [|done]. intros [= <-].
    apply (utf8_encode_cons _ [b0]); [by apply encode_char_1|].
    apply IH'; [simpl; lia | done]. }
  destruct r0 as [|b1 r1]; [done|].
  destruct (is_cont (Byte.to_N b1)) eqn:C1; simpl; [|done].
  destruct (N.leb_spec 0xC2 (Byte.to_N b0)) as [H1|H1];
    [destruct (N.leb_spec (Byte.to_N b0) 0xDF) as [H2|H2]|]; simpl.
  { destruct (utf8_decode r1) as [s1|] eqn:E1; [|done]. intros [= <-].
    apply (utf8_encode_cons _ [b0; b1]); [by apply encode_char_2|].
    apply IH'; [simpl; lia | done]. }
  all: destruct r1 as [|b2 r2]; [done|].
  all: destruct (is_cont (Byte.to_N b2)) eqn:C2; simpl; [|done].
  all: destruct (N.leb_spec 0xE0 (Byte.to_N b0)) as [H3|H3];
    [destruct (N.leb_spec (Byte.to_N b0) 0xEF) as [H4|H4]|]; simpl.
  all: try match goal with
    |- (if ?t then None else _) = _ → _ =>
      destruct t eqn:Hc; [done|];
      destruct (utf8_decode r2) as [s2|] eqn:E2; [|done]; intros [= <-];
      apply (utf8_encode_cons _ [b0; b1; b2]);
        [by apply encode_char_3 | apply IH'; [simpl; lia | done]]
    end.
  all: destruct r2 as [|b3 r3]; [done|].
  all: destruct (is_cont (Byte.to_N b3)) eqn:C3; simpl; [|done].
  all: destruct (N.leb_spec 0xF0 (Byte.to_N b0)) as [H5|H5];
    [destruct (N.leb_spec (Byte.to_N b0) 0xF4) as [H6|H6]|]; simpl; try done.
  all: match goal with
    |- (if ?t then None else _) = _ → _ =>
      destruct t eqn:Hc; [done|];
      destruct (utf8_decode r3) as [s3|] eqn:E3; [|done]; intros [= <-];
      apply (utf8_encode_cons _ [b0; b1; b2; b3]);
        [by apply encode_char_4 | apply IH'; [simpl; lia | done]]
    end.
Qed.

Lemma utf8_encode_scalar s bs : utf8_encode s = Some bs → Forall scalar s.
Proof.
  revert bs. induction s as [|c s IH]; intros bs; simpl; [by constructor|].
  destruct (encode_char c) as [enc|] eqn:Hc; [|done].
  destruct (utf8_encode s) as [rest|]; [|done]. intros _.
  constructor; [by eapply encode_char_scalar | by eapply IH].
Qed.

Lemma utf8_encode_total s : Forall scalar s → is_Some (utf8_encode s).
Proof.
  induction 1 as [|c s Hc _ [rest IH]]; simpl; [by eexists|].
  destruct (scalar_encode_char c Hc) as [enc ->]. rewrite IH. by eexists.
Qed.

Lemma utf8_decode_scalar bs s : utf8_decode bs = Some s → Forall scalar s.
Proof. intros H%utf8_encode_decode. by eapply utf8_encode_scalar. Qed.

Lemma utf8_encode_app a b ea eb :
  utf8_encode a = Some ea → utf8_encode b = Some eb →
  utf8_encode (a ++ b) = Some (ea ++ eb).
Proof.
  revert ea. induction a as [|c a IH]; intros ea; simpl.
  - by intros [= <-].
  - destruct (encode_char c) as [enc|]; [|done].
    destruct (utf8_encode a) as [rest|]; [|done].
    intros [= <-] Hb. rewrite (IH rest) by done. by rewrite (assoc_L (++)).
Qed.

Lemma utf8_encode_app_inv a b bs :
  utf8_encode (a ++ b) = Some bs →
  ∃ ea eb, utf8_encode a = Some ea ∧ utf8_encode b = Some eb ∧ bs = ea ++ eb.
Proof.
  intros H. pose proof (utf8_encode_scalar _ _ H) as [Ha Hb]%Forall_app.
  destruct (utf8_encode_total a Ha) as [ea Hea].
  destruct (utf8_encode_total b Hb) as [eb Heb].
  exists ea, eb. repeat split; [done..|].
  rewrite (utf8_encode_app a b ea eb) in H by done. congruence.
Qed.

(** *** Newlines *)

(** The two-step recursion of [universal_newlines] as an induction
    principle. *)
Lemma universal_newlines_ind (P : text → text → Prop) :
  P [] [] →
  (∀ r, P r (universal_newlines r) → P (CR :: LF :: r) (LF :: universal_newlines r)) →
  (∀ r, (∀ d r', r = d :: r' → d ≠ LF) →
        P r (universal_newlines r) → P (CR :: r) (LF :: universal_newlines r)) →
  (∀ c r, c ≠ CR → P r (universal_newlines r) → P (c :: r) (c :: universal_newlines r)) →
  ∀ s, P s (universal_newlines s).
Proof.
  intros Hnil Hcrlf Hcr Hc s.
  remember (length s) as n eqn:Hn. revert s Hn.
  induction n as [n IH] using lt_wf_ind. intros s ->.
  destruct s as [|c r]; [done|]. simpl.
  destruct (N.eqb_spec c CR) as [->|Hne].
  - destruct r as [|d r'].
    + apply (Hcr []); [done | apply Hnil].
    + destruct (N.eqb_spec d LF) as [->|Hd].
      * apply Hcrlf. eapply IH; [|done]. simpl. lia.
      * apply (Hcr (d :: r')); [by intros ?? [= <- _]|].
        eapply IH; [|done]. simpl. lia.
  - apply Hc; [done|]. eapply IH; [|done]. simpl. lia.
Qed.

Lemma universal_newlines_Forall (P : N → Prop) s :
  P LF → Forall P s → Forall P (universal_newlines s).
Proof.
  intros HLF. pattern s, (universal_newlines s).
  apply universal_newlines_ind; clear s.
  - done.
  - intros r IH H. do 2 apply Forall_cons_1 in H as [_ H]. auto.
  - intros r _ IH [_ H]%Forall_cons_1. auto using Forall_nil.
  - intros c r _ IH [? H]%Forall_cons_1. auto.
Qed.

Lemma universal_newlines_no_CR s : Forall (λ c, c ≠ CR) (universal_newlines s).
Proof.
  pattern s, (universal_newlines s). apply universal_newlines_ind; clear s.
  all: intros; repeat constructor; done.
Qed.

Lemma universal_newlines_id s :
  Forall (λ c, c ≠ CR) s → universal_newlines s = s.
Proof.
  induction 1 as [|c s Hc _ IH]; simpl; [done|].
  destruct (N.eqb_spec c CR); [done|]. by rewrite IH.
Qed.

Lemma write_newlines_cons pl c s :
  write_newlines pl (c :: s)
  = (if (c =? LF)%N then linesep pl else [c]) ++ write_newlines pl s.
Proof. done. Qed.

Lemma write_newlines_posix s : write_newlines Posix s = s.
Proof.
  induction s as [|c s IH]; [done|].
  rewrite write_newlines_cons, IH. by destruct (N.eqb_spec c LF) as [->|].
Qed.

(** Reading gives back what was written, on either platform. *)
Lemma universal_write_newlines pl s :
  Forall (λ c, c ≠ CR) s → universal_newlines (write_newlines pl s) = s.
Proof.
  destruct pl.
  { rewrite write_newlines_posix. apply universal_newlines_id. }
  induction 1 as [|c s Hc _ IH]; [done|].
  rewrite write_newlines_cons.
  destruct (N.eqb_spec c LF) as [->|Hne]; simpl.
  - by rewrite IH.
  - destruct (N.eqb_spec c CR); [done|]. by rewrite IH.
Qed.

Lemma scalar_LF : scalar LF.
Proof. done. Qed.

Lemma scalar_CR : scalar CR.
Proof. done. Qed.

Lemma write_newlines_scalar pl s :
  Forall scalar s → Forall scalar (write_newlines pl s).
Proof.
  induction 1 as [|c s Hc _ IH]; [done|].
  rewrite write_newlines_cons. apply Forall_app. split; [|done].
  destruct (c =? LF)%N; [|by apply Forall_singleton].
  destruct pl; repeat (apply Forall_cons_2 || apply Forall_nil_2); done.
Qed.

(** *** Whole files *)

Lemma decode_text_ok bs s : decode_text bs = Some s → text_ok s.
Proof.
  unfold decode_text, text_ok.
  destruct (utf8_decode bs) as [s0|] eqn:E; [|done]. intros [= <-].
  apply utf8_decode_scalar in E. apply Forall_and. split.
  - by apply universal_newlines_Forall.
  - apply universal_newlines_no_CR.
Qed.

(** A text that was read can be written, and is read back the same. *)
Lemma encode_decode_text pl s :
  text_ok s →
  ∃ bs, encode_text pl s = Some bs ∧ decode_text bs = Some s.
Proof.
  intros [Hs Hcr]%Forall_and. unfold encode_text, decode_text.
  destruct (utf8_encode_total (write_newlines pl s)) as [bs Hbs].
  { by apply write_newlines_scalar. }
  exists bs. split; [done|].
  rewrite (utf8_decode_encode _ _ Hbs). simpl.
  by rewrite universal_write_newlines.
Qed.

(** A pattern without newline characters that the text read from a file
    holds stands in the undecoded text too. *)
Lemma starts_with_universal_newlines (pat s : text) :
  Forall (λ c, c ≠ LF) pat →
  starts_with pat (universal_newlines s) = true → starts_with pat s = true.
Proof.
  intros Hpat. revert s. induction Hpat as [|x pat Hx _ IH]; intros s; [done|].
  destruct s as [|c r]; [done|]. simpl.
  destruct (N.eqb_spec c CR) as [->|Hne].
  - rewrite andb_true_iff, bool_decide_eq_true. by intros [-> _].
  - simpl. rewrite !andb_true_iff. intros [? ?]. split; [done|]. by apply IH.
Qed.

Lemma occurs_universal_newlines (pat s : text) :
  Forall (λ c, c ≠ LF) pat →
  occurs pat (universal_newlines s) → occurs pat s.
Proof.
  intros Hpat. pattern s, (universal_newlines s).
  apply universal_newlines_ind; clear s.
  - done.
  - intros r IH [[|i] Hi].
    + apply occurs_at_0 in Hi. destruct Hpat as [|x pat Hx _].
      * exists 0. by apply occurs_at_0.
      * simpl in Hi. apply andb_true_iff in Hi as [Hi _].
        by apply bool_decide_eq_true in Hi.
    + apply occurs_at_S in Hi. destruct IH as [j Hj]; [by eexists|].
      exists (S (S j)). by do 2 apply occurs_at_S.
  - intros r _ IH [[|i] Hi].
    + apply occurs_at_0 in Hi. destruct Hpat as [|x pat Hx _].
      * exists 0. by apply occurs_at_0.
      * simpl in Hi. apply andb_true_iff in Hi as [Hi _].
        by apply bool_decide_eq_true in Hi.
    + apply occurs_at_S in Hi. destruct IH as [j Hj]; [by eexists|].
      exists (S j). by apply occurs_at_S.
  - intros c r Hc IH [[|i] Hi].
    + exists 0. apply occurs_at_0. apply occurs_at_0 in Hi.
      apply (starts_with_universal_newlines pat (c :: r)); [done|].
      simpl. by destruct (N.eqb_spec c CR).
    + apply occurs_at_S in Hi. destruct IH as [j Hj]; [by eexists|].
      exists (S j). by apply occurs_at_S.
Qed.

Lemma occurs_decode_text (pat : text) epat bs s :
  Forall (λ c, c ≠ LF) pat → utf8_encode pat = Some epat →
  decode_text bs = Some s → occurs pat s → occurs epat bs.
Proof.
  intros Hpat Hepat. unfold decode_text.
  destruct (utf8_decode bs) as [s0|] eqn:E; [|done]. intros [= <-] Hocc.
  apply occurs_universal_newlines in Hocc as [i (a & b & -> & _)]; [|done].
  apply utf8_encode_decode in E.
  apply utf8_encode_app_inv in E as (ea & ? & Hea & E & ->).
  apply utf8_encode_app_inv in E as (? & eb & ? & Heb & ->).
  exists (length ea), ea, eb. split; [|done]. congruence.
Qed.

(** *** Bytes of joined texts *)

Lemma utf8_encode_no_CR s bs :
  utf8_encode s = Some bs → x0d ∉ bs → Forall (λ c, c ≠ CR) s.
Proof.
  revert bs. induction s as [|c s IH]; intros bs; simpl; [by constructor|].
  destruct (encode_char c) as [enc|] eqn:Hc; [|done].
  destruct (utf8_encode s) as [rest|]; [|done].
  intros [= <-] Hno. rewrite not_elem_of_app in Hno. destruct Hno as [Hno1 Hno2].
  constructor; [|by eapply IH].
  intros ->. vm_compute in Hc. injection Hc as <-. apply Hno1. left.
Qed.





End CodecFacts.


(** ** The file system *)

Module FSFacts.
Import FS.

Implicit Types (p q top : path) (n c : node) (f : file)
  (es : list (string * node)) (x y : string).

Lemma assoc_set_entry_eq x c es : assoc x (set_entry x c es) = Some c.
Proof.
  induction es as [|[y d] es IH]; simpl.
  - by rewrite decide_True.
  - destruct (decide (x = y)) as [->|Hne]; simpl.
    + by rewrite decide_True.
    + by rewrite decide_False.
Qed.

Lemma assoc_set_entry_ne x y c es :
  x ≠ y → assoc y (set_entry x c es) = assoc y es.
Proof.
  intros Hne. induction es as [|[z d] es IH]; simpl.
  - by rewrite decide_False.
  - destruct (decide (x = z)) as [->|Hxz]; simpl.
    + by rewrite !decide_False.
    + by rewrite IH.
Qed.

Lemma set_entry_set_entry x c1 c2 es :
  set_entry x c2 (set_entry x c1 es) = set_entry x c2 es.
Proof.
  induction es as [|[z d] es IH]; simpl.
  - by rewrite decide_True.
  - destruct (decide (x = z)) as [->|Hxz]; simpl.
    + by rewrite decide_True.
    + by rewrite decide_False, IH.
Qed.

Lemma set_entry_same x c es : assoc x es = Some c → set_entry x c es = es.
Proof.
  induction es as [|[z d] es IH]; simpl; [done|].
  destruct (decide (x = z)) as [->|Hxz].
  - by intros [= ->].
  - intros H. by rewrite IH.
Qed.

Lemma assoc_elem_of x c es : assoc x es = Some c → (x, c) ∈ es.
Proof.
  induction es as [|[z d] es IH]; simpl; [done|].
  destruct (decide (x = z)) as [->|Hxz].
  - intros [= ->]. left.
  - intros H. right. by apply IH.
Qed.



Lemma set_entry_map {B} (g : string * node → B) x c c' es :
  assoc x es = Some c → g (x, c') = g (x, c) →
  map g (set_entry x c' es) = map g es.
Proof.
  intros Hx Hg. induction es as [|[z d] es IH]; simpl in *; [done|].
  destruct (decide (x = z)) as [->|Hxz]; simpl.
  - injection Hx as ->. by rewrite Hg.
  - by rewrite IH.
Qed.

(** What resolving a path to a regular file says about the path and the
    tree. *)
Lemma resolve_cons_inv x p n c :
  resolve (x :: p) n = Some c →
  ∃ es d, n = Directory es ∧ assoc x es = Some d ∧ resolve p d = Some c.
Proof.
  simpl. destruct n as [f|es]; [done|].
  destruct (assoc x es) as [d|] eqn:E; [|done]. eauto.
Qed.

Lemma resolve_file_Some p n f :
  resolve_file p n = Some f ↔ resolve p n = Some (Regular f).
Proof.
  unfold resolve_file. destruct (resolve p n) as [[?|?]|]; naive_solver.
Qed.

Lemma resolve_put_eq p f n f0 :
  resolve p n = Some (Regular f0) → resolve p (put p f n) = Some (Regular f).
Proof.
  revert n. induction p as [|x p IH]; intros n; [done|].
  intros (es & d & -> & Hx & Hd)%resolve_cons_inv. simpl. rewrite Hx. simpl.
  rewrite assoc_set_entry_eq. by apply IH.
Qed.

Lemma resolve_file_put_eq p f n f0 :
  resolve_file p n = Some f0 → resolve_file p (put p f n) = Some f.
Proof. rewrite !resolve_file_Some. apply resolve_put_eq. Qed.

(** Writing a file leaves the other files alone. *)
Lemma resolve_file_put_ne p q f n f0 :
  resolve p n = Some (Regular f0) → q ≠ p →
  resolve_file q (put p f n) = resolve_file q n.
Proof.
  revert q n. induction p as [|x p IH]; intros q n.
  - intros [= ->] Hq. by destruct q.
  - intros (es & d & -> & Hx & Hd)%resolve_cons_inv Hq.
    simpl. rewrite Hx. destruct q as [|y q]; [done|].
    unfold resolve_file. simpl.
    destruct (decide (x = y)) as [->|Hxy].
    + rewrite assoc_set_entry_eq, Hx. apply IH; [done | congruence].
    + by rewrite assoc_set_entry_ne.
Qed.

Lemma put_put p f1 f2 n f0 :
  resolve p n = Some (Regular f0) → put p f2 (put p f1 n) = put p f2 n.
Proof.
  revert n. induction p as [|x p IH]; intros n; [done|].
  intros (es & d & -> & Hx & Hd)%resolve_cons_inv. simpl. rewrite Hx. simpl.
  rewrite assoc_set_entry_eq, set_entry_set_entry. by rewrite IH.
Qed.

Lemma put_same p f n : resolve p n = Some (Regular f) → put p f n = n.
Proof.
  revert n. induction p as [|x p IH]; intros n.
  - by intros [= ->].
  - intros (es & d & -> & Hx & Hd)%resolve_cons_inv. simpl. rewrite Hx.
    rewrite IH by done. by rewrite set_entry_same.
Qed.



Lemma shape_put p f n f0 :
  resolve p n = Some (Regular f0) →
  readable f = readable f0 → writable f = writable f0 →
  shape (put p f n) = shape n.
Proof.
  intros Hp Hr Hw. revert n Hp. induction p as [|x p IH]; intros n.
  - intros [= ->]. simpl. by rewrite Hr, Hw.
  - intros (es & d & -> & Hx & Hd)%resolve_cons_inv. simpl. rewrite Hx. simpl.
    f_equal. apply (set_entry_map _ x d); [done|]. simpl. by rewrite IH.
Qed.

Lemma resolve_app p q n :
  resolve (p ++ q) n = resolve p n ≫= resolve q.
Proof.
  revert n. induction p as [|x p IH]; intros n; [done|]. simpl.
  destruct n as [f|es]; [done|]. destruct (assoc x es); [|done]. apply IH.
Qed.

(** The walk visits every directory of the tree. *)
Lemma os_walk_complete top q n es :
  resolve q n = Some (Directory es) →
  (top ++ q, dirnames es, filenames es) ∈ os_walk fair top n.
Proof.
  revert top n. induction q as [|x q IH]; intros top n.
  - intros [= ->]. rewrite (right_id_L [] (++)). simpl. left.
  - intros (es0 & d & -> & Hx & Hd)%resolve_cons_inv. simpl. right.
    apply list_elem_of_In, in_flat_map. exists (x, d). split.
    + by apply list_elem_of_In, assoc_elem_of.
    + apply list_elem_of_In. simpl. unfold os_path_join.
      replace (top ++ x :: q) with ((top ++ [x]) ++ q)
        by by rewrite <-(assoc_L (++)).
      by apply IH.
Qed.

Lemma elem_of_filenames x es f :
  assoc x es = Some (Regular f) → x ∈ filenames es.
Proof.
  intros Hx%assoc_elem_of. unfold filenames.
  apply list_elem_of_fmap. exists (x, Regular f). split; [done|].
  by apply list_elem_of_filter.
Qed.

End FSFacts.


(** ** One call of [update_imports_in_file] *)

Module StepFacts.
Import Text TextFacts ReplaceFacts Codec CodecFacts FS FSFacts Script Outcome.

Section rule.
Variable pl : platform.
Variables old new : text.
Implicit Types (p q : path) (n : node) (f : file) (w : world).

(** The body of a call, in any system, does what the verdict on its file,
    the device and the standard output say. *)
Lemma update_body_in_verdict sys p w :
  let v := verdict_of pl old new p (tree w) in
  update_body_in sys pl old new p w
  = (match body_exn sys p v with
     | Some e => Raise e
     | None => Return (verdict_result v)
     end,
     World (call_tree sys p v (tree w))
           (stdout w ++ match body_exn sys p v with
                        | None => if verdict_result v then [Updated p] else []
                        | Some _ => []
                        end)
           (trace w ++ verdict_events p v)).
Proof.
  destruct w as [n out tr]. simpl.
  unfold update_body_in, verdict_of, read_text, write_text, open_w, file_verdict.
  unfold mbind, io_bind, mret, io_ret, get_tree, set_tree, log, print, raise.
  simpl.
  destruct (resolve p n) as [[f|es]|] eqn:Hp; simpl;
    rewrite ?(right_id_L [] (++)); try done.
  destruct (readable f) eqn:Hr; simpl; rewrite ?(right_id_L [] (++)); [|done].
  destruct (decode_text (data f)) as [c|]; simpl;
    rewrite ?(right_id_L [] (++)); [|done].
  case_bool_decide; simpl; rewrite ?(right_id_L [] (++)); [|done].
  rewrite Hp. destruct (writable f) eqn:Hw; simpl.
  - destruct (encode_text pl (str_replace old new c)) as [bs|]; simpl.
    + rewrite Hr. destruct (write_fault sys p) as [[e k]|]; simpl.
      * rewrite (put_put _ _ _ _ f) by done.
        by rewrite (right_id_L [] (++)), <-(assoc_L (++)).
      * rewrite (put_put _ _ _ _ f) by done.
        destruct (encodes sys p); simpl;
          by rewrite ?(right_id_L [] (++)), <-(assoc_L (++)).
    + by rewrite Hr, (right_id_L [] (++)), <-(assoc_L (++)).
  - by rewrite (right_id_L [] (++)), <-(assoc_L (++)).
Qed.

Lemma verdict_exn_Exception p v e :
  verdict_exn p v = Some e → is_Exception e = true.
Proof. destruct v; simpl; by intros [= <-]. Qed.

Lemma body_exn_Exception sys p v e :
  body_exn sys p v = Some e → is_Exception e = true.
Proof.
  destruct v; simpl; try by intros [= <-].
  destruct (write_fault sys p) as [[e' k]|]; [by intros [= <-]|].
  destruct (encodes sys p); [done|by intros [= <-]].
Qed.

(** A call, in any system: what it returns or raises, the tree it
    leaves, the line it prints and the files it opens. *)
Lemma update_step_in sys p w :
  let v := verdict_of pl old new p (tree w) in
  update_imports_in_file_in sys pl old new p w
  = (call_outcome sys p v,
     World (call_tree sys p v (tree w))
           (stdout w ++ call_lines sys p v)
           (trace w ++ verdict_events p v)).
Proof.
  simpl. unfold update_imports_in_file_in, try_except.
  rewrite update_body_in_verdict. simpl. unfold call_outcome, call_lines.
  destruct (body_exn sys p _) as [e|] eqn:He; [|done].
  rewrite (body_exn_Exception _ _ _ _ He).
  unfold mbind, io_bind, print, mret, io_ret. simpl.
  destruct (encodes sys p); simpl; by rewrite (right_id_L [] (++)).
Qed.

(** In the fair system the verdict says it all. *)
Lemma body_exn_fair p v : body_exn fair p v = verdict_exn p v.
Proof. by destruct v. Qed.

Lemma call_tree_fair p v n : call_tree fair p v n = verdict_tree p v n.
Proof. by destruct v. Qed.

Lemma call_outcome_fair p v : call_outcome fair p v = Return (verdict_result v).
Proof. by destruct v. Qed.

Lemma call_lines_fair p v : call_lines fair p v = verdict_lines p v.
Proof. by destruct v. Qed.

(** In the fair system the body of a call does what the verdict on its
    file says. *)
Lemma update_body_verdict p w :
  let v := verdict_of pl old new p (tree w) in
  update_body pl old new p w
  = (match verdict_exn p v with
     | Some e => Raise e
     | None => Return (verdict_result v)
     end,
     World (verdict_tree p v (tree w))
           (stdout w ++ if verdict_result v then [Updated p] else [])
           (trace w ++ verdict_events p v)).
Proof.
  simpl. unfold update_body. rewrite update_body_in_verdict. simpl.
  rewrite body_exn_fair, call_tree_fair.
  by destruct (verdict_of pl old new p (tree w)).
Qed.

(** In the fair system a call does what the verdict on its file says, and
    never raises. *)
Lemma update_step p w :
  let v := verdict_of pl old new p (tree w) in
  update_imports_in_file_with pl old new p w
  = (Return (verdict_result v),
     World (verdict_tree p v (tree w))
           (stdout w ++ verdict_lines p v)
           (trace w ++ verdict_events p v)).
Proof.
  simpl. unfold update_imports_in_file_with. rewrite update_step_in. simpl.
  by rewrite call_outcome_fair, call_tree_fair, call_lines_fair.
Qed.

Lemma verdict_of_file p n f :
  resolve_file p n = Some f →
  verdict_of pl old new p n = file_verdict pl old new f.
Proof. intros H%resolve_file_Some. unfold verdict_of. by rewrite H. Qed.

Lemma verdict_of_no_file p n :
  resolve_file p n = None → ∃ e, verdict_of pl old new p n = NoAccess e.
Proof.
  unfold resolve_file, verdict_of.
  destruct (resolve p n) as [[f|es]|]; [done|eauto..].
Qed.

(** Only the file at [p] can change, and only in its contents. *)
Lemma verdict_tree_cases p n :
  let v := verdict_of pl old new p n in
  verdict_tree p v n = n
  ∨ ∃ f, resolve p n = Some (Regular f)
         ∧ verdict_tree p v n = put p (rewrite pl old new f) n
         ∧ readable (rewrite pl old new f) = readable f
         ∧ writable (rewrite pl old new f) = writable f.
Proof.
  unfold verdict_of, rewrite.
  destruct (resolve p n) as [[f|es]|] eqn:Hp; simpl; [|by left..].
  destruct (file_verdict pl old new f) as [| | | |f'|f'] eqn:Hv; simpl;
    [by left..| |]; right; exists f; rewrite Hv;
    (split; [done|]); (split; [done|]).
  all: unfold file_verdict in Hv; repeat case_match; try done.
  all: by injection Hv as <-.
Qed.

Lemma resolve_file_verdict_tree p q n :
  resolve_file q (verdict_tree p (verdict_of pl old new p n) n)
  = if decide (q = p) then rewrite pl old new <$> resolve_file q n
    else resolve_file q n.
Proof.
  destruct (verdict_tree_cases p n) as [Heq|(f & Hp & -> & _)].
  - rewrite Heq. case_decide as Hq; [subst q|done].
    destruct (resolve_file p n) as [f|] eqn:Hf; [|done]. simpl. f_equal.
    apply resolve_file_Some in Hf. revert Heq.
    unfold verdict_of, rewrite. rewrite Hf.
    destruct (file_verdict pl old new f) as [| | | |f'|f']; simpl; try done.
    all: intros Heq; pose proof (resolve_put_eq p f' n f Hf) as H.
    all: rewrite Heq, Hf in H; congruence.
  - case_decide as Hq; [subst q|].
    + erewrite resolve_file_put_eq; [|by apply resolve_file_Some].
      apply resolve_file_Some in Hp. by rewrite Hp.
    + by eapply resolve_file_put_ne.
Qed.


Lemma shape_verdict_tree p n :
  shape (verdict_tree p (verdict_of pl old new p n) n) = shape n.
Proof.
  destruct (verdict_tree_cases p n) as [->|(f & Hp & -> & ? & ?)]; [done|].
  by eapply shape_put.
Qed.


Lemma shape_tree_after ps n : shape (tree_after pl old new ps n) = shape n.
Proof.
  revert n. induction ps as [|p ps IH]; intros n; simpl; [done|].
  by rewrite IH, shape_verdict_tree.
Qed.

(** The loop of [main] makes the calls one after the other and counts
    the files written. *)
Lemma update_all_verdicts ps cnt w :
  let vs := verdicts pl old new ps (tree w) in
  update_all pl old new ps cnt w
  = (Return (cnt + length (rewritten_paths vs)),
     World (tree_after pl old new ps (tree w))
           (stdout w ++ lines_of vs) (trace w ++ events_of vs)).
Proof.
  unfold update_all.
  revert cnt w. induction ps as [|p ps IH]; intros cnt w; simpl.
  - destruct w. unfold mret, io_ret. simpl.
    by rewrite Nat.add_0_r, !(right_id_L [] (++)).
  - unfold mbind, io_bind.
    change (update_imports_in_file_in fair pl old new p w)
      with (update_imports_in_file_with pl old new p w).
    rewrite update_step. simpl. rewrite IH. simpl.
    unfold lines_of, events_of, rewritten_paths. simpl.
    rewrite !(assoc_L (++)), length_app.
    do 2 f_equal. destruct (verdict_of pl old new p (tree w)); simpl; lia.
Qed.


Lemma written_events_of vs :
  Forall (λ pv, ∀ f0, pv.2 ≠ Unencodable f0) vs →
  written (events_of vs) = rewritten_paths vs.
Proof.
  unfold written, events_of, rewritten_paths.
  induction 1 as [|[p v] vs Hv _ IH]; simpl; [done|].
  rewrite flat_map_app, IH. destruct v; try reflexivity.
  by destruct (Hv f0).
Qed.

Lemma elem_of_rewritten_paths vs p :
  p ∈ rewritten_paths vs ↔ ∃ f', (p, Rewritten f') ∈ vs.
Proof.
  unfold rewritten_paths. rewrite list_elem_of_In, in_flat_map. split.
  - intros ([q v] & Hin%list_elem_of_In & Hp). simpl in Hp.
    destruct v; simpl in Hp; try done. destruct Hp as [->|[]]. eauto.
  - intros [f' Hin]. exists (p, Rewritten f'). split; [|by left].
    by apply list_elem_of_In.
Qed.

Lemma verdicts_fst ps n : (verdicts pl old new ps n).*1 = ps.
Proof.
  revert n. induction ps as [|p ps IH]; intros n; simpl; [done|].
  by rewrite IH.
Qed.

Lemma elem_of_verdicts_path ps n q v :
  (q, v) ∈ verdicts pl old new ps n → q ∈ ps.
Proof.
  intros H. rewrite <-(verdicts_fst ps n). apply list_elem_of_fmap.
  by exists (q, v).
Qed.

(** *** Rules that leave no occurrence behind

    From here on the rule is one whose [old] is not empty and does not
    overlap with [new], and whose [new] can be written to a file.  The
    rule of the script is one (see [RuleFacts]). *)

Hypothesis old_nonempty : old ≠ [].
Hypothesis new_ok : text_ok new.
Hypothesis rule_no_overlap : no_overlap old new = true.

Lemma str_replace_ok c : text_ok c → text_ok (str_replace old new c).
Proof.
  intros Hc. eapply replaced_ltr_Forall; [apply new_ok| |done].
  by apply str_replace_ltr.
Qed.

Lemma str_replace_clean c : ¬ occurs old (str_replace old new c).
Proof.
  eapply replaced_ltr_clean; [done..|]. by apply str_replace_ltr.
Qed.

Lemma str_replace_no_occurrence c :
  ¬ occurs old c → str_replace old new c = c.
Proof.
  intros H. eapply replaced_ltr_same; [|done]. by apply str_replace_ltr.
Qed.

Lemma str_replace_changed c :
  str_replace old new c ≠ c → occurs old c.
Proof.
  intros H. eapply replaced_ltr_changed; [|done]. by apply str_replace_ltr.
Qed.

Lemma str_replace_occurs c :
  occurs old c → str_replace old new c ≠ c.
Proof. intros H Heq. apply (str_replace_clean c). by rewrite Heq. Qed.

Lemma str_replace_idem c :
  str_replace old new (str_replace old new c) = str_replace old new c.
Proof. apply str_replace_no_occurrence, str_replace_clean. Qed.

(** What was read can always be written back. *)
Lemma file_verdict_encodable f f0 :
  file_verdict pl old new f ≠ Unencodable f0.
Proof.
  unfold file_verdict. destruct (readable f); [|done].
  destruct (decode_text (data f)) as [c|] eqn:Hc; [|done].
  case_bool_decide; [|done]. destruct (writable f); [|done].
  destruct (encode_decode_text pl (str_replace old new c)) as (bs & -> & _);
    [|done].
  by apply str_replace_ok, decode_text_ok with (data f).
Qed.

Lemma file_verdict_Rewritten f f' :
  file_verdict pl old new f = Rewritten f' ↔
  ∃ c bs, readable f = true ∧ writable f = true
    ∧ decode_text (data f) = Some c ∧ str_replace old new c ≠ c
    ∧ encode_text pl (str_replace old new c) = Some bs
    ∧ decode_text bs = Some (str_replace old new c)
    ∧ f' = File bs true true.
Proof.
  unfold file_verdict. split.
  - destruct (readable f); [|done].
    destruct (decode_text (data f)) as [c|] eqn:Hc; [|done].
    case_bool_decide; [|done]. destruct (writable f); [|done].
    destruct (encode_decode_text pl (str_replace old new c)) as (bs & Hbs & ?).
    { by apply str_replace_ok, decode_text_ok with (data f). }
    rewrite Hbs. intros [= <-]. by exists c, bs.
  - intros (c & bs & -> & -> & -> & ? & -> & _ & ->).
    by rewrite bool_decide_true.
Qed.

(** A file that was written needs no second writing. *)
Lemma file_verdict_again f f' :
  file_verdict pl old new f = Rewritten f' →
  file_verdict pl old new f' = Unchanged.
Proof.
  intros (c & bs & _ & _ & _ & _ & _ & Hbs & ->)%file_verdict_Rewritten.
  unfold file_verdict. simpl. rewrite Hbs.
  by rewrite bool_decide_false by (rewrite str_replace_idem; auto).
Qed.

Lemma rewrite_Rewritten f f' :
  file_verdict pl old new f = Rewritten f' → rewrite pl old new f = f'.
Proof. unfold rewrite. by intros ->. Qed.

Lemma rewrite_other f :
  (∀ f', file_verdict pl old new f ≠ Rewritten f') → rewrite pl old new f = f.
Proof.
  unfold rewrite. intros H.
  destruct (file_verdict pl old new f) as [| | | |f0|f'] eqn:Hv; try done.
  - by apply file_verdict_encodable in Hv.
  - by destruct (H f').
Qed.

Lemma file_verdict_rewrite f :
  file_verdict pl old new (rewrite pl old new f)
  = match file_verdict pl old new f with
    | Rewritten _ => Unchanged
    | v => v
    end.
Proof.
  destruct (file_verdict pl old new f) as [| | | |f0|f'] eqn:Hv.
  all: try (rewrite rewrite_other; [done | by rewrite Hv]).
  rewrite (rewrite_Rewritten _ f') by done. by apply file_verdict_again with f.
Qed.

Lemma rewrite_idem f :
  rewrite pl old new (rewrite pl old new f) = rewrite pl old new f.
Proof.
  apply rewrite_other. intros f'. rewrite file_verdict_rewrite.
  by destruct (file_verdict pl old new f).
Qed.



(** *** A sequence of calls *)

(** Each file named in the sequence ends as one call leaves it; the other
    files are as they were. *)
Lemma resolve_file_tree_after ps q n :
  resolve_file q (tree_after pl old new ps n)
  = if decide (q ∈ ps) then rewrite pl old new <$> resolve_file q n
    else resolve_file q n.
Proof.
  revert n. induction ps as [|p ps IH]; intros n; cbn [tree_after].
  { by rewrite decide_False by apply not_elem_of_nil. }
  rewrite IH, resolve_file_verdict_tree.
  destruct (decide (q = p)) as [->|Hne].
  - rewrite (decide_True (P := p ∈ p :: ps)) by left.
    case_decide; [|done].
    destruct (resolve_file p n); simpl; [|done]. by rewrite rewrite_idem.
  - destruct (decide (q ∈ ps)) as [Hin|Hin].
    + by rewrite decide_True by by right.
    + rewrite decide_False; [done|]. by intros [?|?]%elem_of_cons.
Qed.

(** The verdict of a call is the verdict on the file as it was at the
    start, unless an earlier call has already written that file. *)
Lemma verdicts_sound ps n q v :
  (q, v) ∈ verdicts pl old new ps n →
  match resolve_file q n with
  | Some f => v = file_verdict pl old new f
              ∨ (v = Unchanged ∧ ∃ f', file_verdict pl old new f = Rewritten f')
  | None => ∃ e, v = NoAccess e
  end.
Proof.
  revert n. induction ps as [|p ps IH]; intros n; simpl.
  { by intros ?%elem_of_nil. }
  intros [[= -> ->]|Hin]%elem_of_cons.
  - destruct (resolve_file p n) as [f|] eqn:Hf.
    + left. by apply verdict_of_file.
    + by apply verdict_of_no_file.
  - apply IH in Hin. rewrite resolve_file_verdict_tree in Hin.
    case_decide as Hq; [subst q|done].
    destruct (resolve_file p n) as [f|]; simpl in *; [|done].
    rewrite file_verdict_rewrite in Hin.
    destruct (file_verdict pl old new f) eqn:Hv; try tauto.
    right. split; [|by eexists]. by destruct Hin as [?|[? _]].
Qed.

(** The first call on a file finds it as it was at the start. *)
Lemma verdicts_first ps n q f :
  q ∈ ps → resolve_file q n = Some f →
  (q, file_verdict pl old new f) ∈ verdicts pl old new ps n.
Proof.
  revert n. induction ps as [|p ps IH]; intros n; simpl.
  { by intros ?%elem_of_nil. }
  intros Hin Hf. destruct (decide (q = p)) as [->|Hne].
  - rewrite (verdict_of_file _ _ f) by done. left.
  - right. apply elem_of_cons in Hin as [?|Hin]; [done|].
    apply IH; [done|]. rewrite resolve_file_verdict_tree.
    by rewrite decide_False.
Qed.

Lemma verdicts_encodable ps n :
  Forall (λ pv, ∀ f0, pv.2 ≠ Unencodable f0) (verdicts pl old new ps n).
Proof.
  apply Forall_forall. intros [q v] Hin f0 Hv. simpl in Hv. subst v.
  apply verdicts_sound in Hin.
  destruct (resolve_file q n) as [f|].
  - destruct Hin as [Hv|[? _]]; [|done].
    symmetry in Hv. by apply file_verdict_encodable in Hv.
  - by destruct Hin.
Qed.




End rule.
End StepFacts.


(** ** A run of [main] *)

Module RunFacts.
Import Text TextFacts ReplaceFacts Codec CodecFacts FS FSFacts Script Outcome.
Import StepFacts.

Implicit Types (p q : path) (n : node) (f : file) (w : world).

(** [str.replace] on small inputs: occurrences do not overlap, what was
    put in is not searched again, and an empty [old] matches between any
    two characters. *)
Example str_replace_overlapping :
  str_replace (py_str "aa") (py_str "b") (py_str "aaaaa") = py_str "bba".
Proof. reflexivity. Qed.

Example str_replace_not_rescanned :
  str_replace (py_str "ab") (py_str "a") (py_str "abb") = py_str "ab".
Proof. reflexivity. Qed.

Example str_replace_empty_old :
  str_replace (py_str "") (py_str "-") (py_str "abc") = py_str "-a-b-c-".
Proof. reflexivity. Qed.

(** Reading translates the line endings; writing puts [os.linesep]. *)
Example decode_text_crlf :
  decode_text [x61; x0d; x0a; x62; x0d; x63] = Some [97; 10; 98; 10; 99]%N.
Proof. reflexivity. Qed.

Example encode_text_windows :
  encode_text Windows [97; 10; 98]%N = Some [x61; x0d; x0a; x62].
Proof. reflexivity. Qed.

(** Strict decoding: an overlong form and a surrogate are errors. *)
Example utf8_decode_overlong : utf8_decode [xc0; x80] = None.
Proof. reflexivity. Qed.

Example utf8_decode_surrogate : utf8_decode [xed; xa0; x80] = None.
Proof. reflexivity. Qed.

Example utf8_decode_euro : utf8_decode [xe2; x82; xac] = Some [0x20AC%N].
Proof. reflexivity. Qed.

(** The files found are named with the extension. *)
Lemma find_files_last ext n p :
  p ∈ find_files ext n →
  ∃ name, last p = Some name ∧ endswith name ext = true.
Proof.
  unfold find_files, find_files_in. rewrite list_elem_of_In, in_flat_map.
  intros ([[root dirs] files] & _ & Hp). apply in_flat_map in Hp.
  destruct Hp as (file & _ & Hp). destruct (endswith file ext) eqn:E.
  - destruct Hp as [<-|[]]. exists file. split; [|done].
    unfold os_path_join. apply last_snoc.
  - destruct Hp.
Qed.

(** Every regular file of the tree named with the extension is found. *)
Lemma find_files_complete ext n p f name :
  resolve_file p n = Some f → last p = Some name →
  endswith name ext = true → p ∈ find_files ext n.
Proof.
  intros Hf%resolve_file_Some Hlast Hext.
  destruct p as [|x p _] using rev_ind; [done|].
  rewrite last_snoc in Hlast. injection Hlast as ->.
  rewrite resolve_app in Hf.
  destruct (resolve p n) as [d|] eqn:Hd; [|done]. simpl in Hf.
  destruct d as [?|es]; [done|].
  destruct (assoc name es) as [c|] eqn:Hc; [|done]. injection Hf as ->.
  unfold find_files, find_files_in. apply list_elem_of_In, in_flat_map.
  exists (p, dirnames es, filenames es). split.
  - apply list_elem_of_In. by apply (os_walk_complete []).
  - apply in_flat_map. exists name. split.
    + apply list_elem_of_In. by eapply elem_of_filenames.
    + rewrite Hext. by left.
Qed.

Section rule.
Variable pl : platform.
Variables old new : text.
Variable ext : string.


(** [main] finds the files, calls [update_imports_in_file] on each and
    prints the number of files written. *)
Lemma main_with_verdicts w :
  let ps := find_files ext (tree w) in
  let vs := verdicts pl old new ps (tree w) in
  main_with pl old new ext w
  = (Return (),
     World (tree_after pl old new ps (tree w))
           (stdout w ++ lines_of vs ++ [Summary (length (rewritten_paths vs))])
           (trace w ++ events_of vs)).
Proof.
  unfold main_with, main_in, mbind, io_bind, get_tree.
  change (find_files_in fair ext) with (find_files ext).
  change (update_all_in fair pl old new) with (update_all pl old new).
  rewrite update_all_verdicts. unfold print. simpl.
  by rewrite <-(assoc_L (++)).
Qed.

End rule.

(** *** The rule of the script *)

Lemma OLD_nonempty : OLD ≠ [].
Proof. done. Qed.

Lemma NEW_ok : text_ok NEW.
Proof.
  unfold text_ok. apply Forall_forall. intros c Hc.
  assert (c < 128 ∧ c ≠ CR)%N as [? ?].
  { revert c Hc. apply Forall_forall. unfold NEW, py_str. simpl.
    repeat (apply Forall_cons_2; [split; [reflexivity | discriminate]|]).
    apply Forall_nil_2. }
  split; [|done]. split; [lia|]. apply is_surrogate_false. lia.
Qed.

Lemma OLD_NEW_no_overlap : no_overlap OLD NEW = true.
Proof. vm_compute. reflexivity. Qed.

Lemma OLD_unbordered : unbordered OLD = true.
Proof. vm_compute. reflexivity. Qed.

Lemma OLD_no_LF : Forall (λ c, c ≠ LF) OLD.
Proof.
  unfold OLD, py_str. simpl.
  repeat (apply Forall_cons_2; [discriminate|]). apply Forall_nil_2.
Qed.

Lemma OLD_encoded : utf8_encode OLD = Some OLD_bytes.
Proof. vm_compute. reflexivity. Qed.


End RunFacts.


(** ** The script with its own rule *)

Module ScriptFacts.
Import Text TextFacts ReplaceFacts Codec CodecFacts FS FSFacts Script Outcome.
Import StepFacts RunFacts.

Implicit Types (p q : path) (n : node) (f : file) (w : world)
  (pl : platform) (v : verdict) (vs : list (path * verdict)).

(** The side conditions on the rule, for the rule of the script. *)
Ltac rule_side :=
  first [apply OLD_nonempty | apply NEW_ok | apply OLD_NEW_no_overlap].

Lemma run_eq pl n :
  run pl n
  = World (tree_after pl OLD NEW (go_files n) n)
          (lines_of (run_verdicts pl n)
             ++ [Summary (length (rewritten_paths (run_verdicts pl n)))])
          (events_of (run_verdicts pl n)).
Proof. unfold run, main. by rewrite main_with_verdicts. Qed.

Lemma elem_of_events_of vs ev :
  ev ∈ events_of vs ↔ ∃ q v, (q, v) ∈ vs ∧ ev ∈ verdict_events q v.
Proof.
  unfold events_of. rewrite list_elem_of_In, in_flat_map. split.
  - intros ([q v] & ?%list_elem_of_In & ?%list_elem_of_In). eauto.
  - intros (q & v & ?%list_elem_of_In & ?%list_elem_of_In).
    by exists (q, v).
Qed.

Lemma elem_of_lines_of vs l :
  l ∈ lines_of vs ↔ ∃ q v, (q, v) ∈ vs ∧ l ∈ verdict_lines q v.
Proof.
  unfold lines_of. rewrite list_elem_of_In, in_flat_map. split.
  - intros ([q v] & ?%list_elem_of_In & ?%list_elem_of_In). eauto.
  - intros (q & v & ?%list_elem_of_In & ?%list_elem_of_In).
    by exists (q, v).
Qed.

(** An event names the path of the call that made it. *)
Lemma verdict_events_path q v m p ok :
  Open m p ok ∈ verdict_events q v → p = q.
Proof.
  destruct v; simpl; rewrite ?elem_of_cons, elem_of_nil; naive_solver.
Qed.


Lemma verdict_events_write pl f p ok :
  Open W p ok ∈ verdict_events p (file_verdict pl OLD NEW f) →
  wants_write f.
Proof.
  unfold file_verdict, wants_write, updated_content.
  destruct (readable f); [|by intros [[=]|[]%elem_of_nil]%elem_of_cons].
  destruct (decode_text (data f)) as [c|];
    [|by intros [[=]|[]%elem_of_nil]%elem_of_cons].
  case_bool_decide; [by eauto|].
  by intros [[=]|[]%elem_of_nil]%elem_of_cons.
Qed.


(** The text a call wants to write holds the old substring, and so do the
    bytes of the file. *)
Lemma wants_write_occurs f : wants_write f → occurs OLD_bytes (data f).
Proof.
  intros [_ (c & Hc & Hne)].
  eapply occurs_decode_text; [apply OLD_no_LF | apply OLD_encoded | done |].
  eapply str_replace_changed; [rule_side | done].
Qed.

(** The calls of a run that open a file for writing. *)
Lemma run_open_write pl n p ok :
  Open W p ok ∈ trace (run pl n) →
  p ∈ go_files n ∧ ∃ f, resolve_file p n = Some f ∧ wants_write f.
Proof.
  rewrite run_eq. simpl. intros (q & v & Hin & Hev)%elem_of_events_of.
  pose proof (verdict_events_path _ _ _ _ _ Hev) as ->.
  split; [by eapply elem_of_verdicts_path|].
  apply verdicts_sound in Hin; try rule_side.
  destruct (resolve_file q n) as [f|].
  - exists f. split; [done|]. destruct Hin as [->|[-> _]].
    + by eapply verdict_events_write.
    + by apply elem_of_cons in Hev as [[=]|[]%elem_of_nil].
  - destruct Hin as [e ->].
    by apply elem_of_cons in Hev as [[=]|[]%elem_of_nil].
Qed.


(** The tree a run leaves. *)
Lemma run_resolve_file pl n q :
  resolve_file q (tree (run pl n))
  = if decide (q ∈ go_files n) then rewrite pl OLD NEW <$> resolve_file q n
    else resolve_file q n.
Proof.
  rewrite run_eq. simpl.
  apply resolve_file_tree_after; rule_side.
Qed.

Lemma run_shape pl n : shape (tree (run pl n)) = shape n.
Proof. rewrite run_eq. simpl. apply shape_tree_after. Qed.





End ScriptFacts.


(** * The properties of the script *)

Module Claims.
Import Text TextFacts ReplaceFacts Codec CodecFacts FS FSFacts Script Outcome.
Import StepFacts RunFacts ScriptFacts Trees.

Implicit Types (p q : path) (n : node) (f : file) (w : world)
  (pl : platform).

(** C9.  The text a call computes is the result of one left-to-right pass
    over the text it read: the leftmost occurrence of the old path is
    replaced by the new one, the pass goes on after that occurrence, and
    what it has put in is not looked at again.  The pass has one result
    only. *)
Theorem updated_content_left_to_right (content : text) :
  replaced_ltr OLD NEW content (updated_content content)
  ∧ ∀ r, replaced_ltr OLD NEW content r → r = updated_content content.
Proof.
  split.
  - apply str_replace_ltr, OLD_nonempty.
  - intros r Hr. by apply replaced_ltr_str_replace.
Qed.




(** C2.  A run leaves a file whose bytes do not hold the old path as it
    is, and does not open it for writing; the same holds when the text
    read from the file does not hold the old path, and when the file
    cannot be read as text.  Put the other way round: a file that a run
    opens for writing held the old path, in its bytes and in its text. *)
Theorem no_match_no_write pl n p f :
  resolve_file p n = Some f →
  ((∀ c, decode_text (data f) = Some c → ¬ occurs OLD c) →
     resolve_file p (tree (run pl n)) = Some f
     ∧ ∀ ok, Open W p ok ∉ trace (run pl n))
  ∧ (¬ occurs OLD_bytes (data f) →
     resolve_file p (tree (run pl n)) = Some f
     ∧ ∀ ok, Open W p ok ∉ trace (run pl n))
  ∧ (∀ ok, Open W p ok ∈ trace (run pl n) →
     occurs OLD_bytes (data f)
     ∧ ∃ c, decode_text (data f) = Some c ∧ occurs OLD c).
Proof.
  intros Hf.
  assert (∀ ok, Open W p ok ∈ trace (run pl n) →
     occurs OLD_bytes (data f)
     ∧ ∃ c, decode_text (data f) = Some c ∧ occurs OLD c) as Hwrite.
  { intros ok (_ & f0 & Hf0 & Hw)%run_open_write.
    assert (f0 = f) as -> by congruence.
    split; [by apply wants_write_occurs|].
    destruct Hw as (_ & c & Hc & Hne). exists c. split; [done|].
    eapply str_replace_changed; [rule_side | done]. }
  assert ((∀ c, decode_text (data f) = Some c → ¬ occurs OLD c) →
     resolve_file p (tree (run pl n)) = Some f
     ∧ ∀ ok, Open W p ok ∉ trace (run pl n)) as Htext.
  { intros Hno. split.
    - rewrite run_resolve_file, Hf. case_decide; [|done]. simpl. f_equal.
      apply rewrite_other; [rule_side..|]. intros f' Hv.
      apply file_verdict_Rewritten in Hv
        as (c & bs & _ & _ & Hc & Hne & _); [|rule_side..].
      apply (Hno c Hc). eapply str_replace_changed; [rule_side | done].
    - intros ok (_ & c & Hc & Hocc)%Hwrite. by apply (Hno c). }
  split; [done|]. split; [|done].
  intros Hno. apply Htext. intros c Hc Hocc. apply Hno.
  eapply occurs_decode_text; [apply OLD_no_LF | apply OLD_encoded | done..].
Qed.

Lemma no_match_no_write_witness :
  resolve_file ["b"; "y.go"] (tree (run Posix go_scenario))
  = Some (File (list_byte_of_string "unrelated") true true)
  ∧ ∀ ok, Open W ["b"; "y.go"] ok ∉ trace (run Posix go_scenario).
Proof.
  apply (no_match_no_write Posix go_scenario ["b"; "y.go"]
           (File (list_byte_of_string "unrelated") true true)).
  - reflexivity.
  - apply find_None. vm_compute. reflexivity.
Defined.







(** C6.  A run opens only files whose name ends with [.go]: a file with
    another name is never opened, for reading or for writing, and is
    left as it is.  A run creates no file and removes none: the tree has
    the same names, kinds and permissions after it, and the same paths
    lead to files. *)
Theorem only_go_files_touched pl n p name :
  last p = Some name → endswith name ".go" = false →
  resolve_file p (tree (run pl n)) = resolve_file p n
  ∧ (∀ m ok, Open m p ok ∉ trace (run pl n))
  ∧ (∀ m q ok, Open m q ok ∈ trace (run pl n) →
       ∃ name', last q = Some name' ∧ endswith name' ".go" = true)
  ∧ shape (tree (run pl n)) = shape n
  ∧ (∀ q, is_Some (resolve_file q (tree (run pl n)))
          ↔ is_Some (resolve_file q n)).
Proof.
  intros Hlast Hext.
  assert (∀ m q ok, Open m q ok ∈ trace (run pl n) → q ∈ go_files n) as Hev.
  { intros m q ok. rewrite run_eq. simpl.
    intros (q' & v & Hin & Hq)%elem_of_events_of.
    apply verdict_events_path in Hq as ->. by eapply elem_of_verdicts_path. }
  assert (p ∉ go_files n) as Hp.
  { intros (name' & Hlast' & Hext')%find_files_last. congruence. }
  split; [|split; [|split; [|split]]].
  - by rewrite run_resolve_file, decide_False.
  - intros m ok Hin. by apply Hp, (Hev m p ok).
  - intros m q ok Hin. by eapply find_files_last, Hev.
  - apply run_shape.
  - intros q. rewrite run_resolve_file. case_decide; [|done].
    by rewrite fmap_is_Some.
Qed.

Lemma only_go_files_touched_witness :
  resolve_file ["c"; "z.txt"] (tree (run Posix go_scenario))
  = resolve_file ["c"; "z.txt"] go_scenario
  ∧ ∀ m ok, Open m ["c"; "z.txt"] ok ∉ trace (run Posix go_scenario).
Proof.
  destruct (only_go_files_touched Posix go_scenario ["c"; "z.txt"] "z.txt")
    as (H1 & H2 & _).
  - reflexivity.
  - vm_compute. reflexivity.
  - exact (conj H1 H2).
Defined.


(** C8.  The scenario of the specification.  With the rule that replaces
    [prefix_old] by [prefix_new] in the files named [*.ext], a run turns
    [a/x.ext] into [prefix_new/pkg] and prints its [Updated: ...] line,
    reads [b/y.ext] and leaves it, does not open [c/z.txt], and prints
    [Updated 1 files].  The script, with its own rule and [.go], does the
    same on the same tree written with its two paths. *)
Theorem scenario_run pl :
  snd (main_with pl (py_str "prefix_old") (py_str "prefix_new") ".ext"
         (start scenario))
  = World scenario_after
      [Updated ["a"; "x.ext"]; Summary 1]
      [Open R ["a"; "x.ext"] true; Open W ["a"; "x.ext"] true;
       Open R ["b"; "y.ext"] true]
  ∧ (∀ str_exn, render str_exn <$> [Updated ["a"; "x.ext"]; Summary 1]
                = ["Updated: ./a/x.ext"; "Updated 1 files"])
  ∧ run pl go_scenario
    = World go_scenario_after
        [Updated ["a"; "x.go"]; Summary 1]
        [Open R ["a"; "x.go"] true; Open W ["a"; "x.go"] true;
         Open R ["b"; "y.go"] true].
Proof.
  split; [|split].
  - destruct pl; vm_compute; reflexivity.
  - intros str_exn. reflexivity.
  - destruct pl; vm_compute; reflexivity.
Qed.




End Claims.


(** * More on the walk, the calls and the replacement *)

(** ** The walk of a tree *)

Module WalkFacts.
Import FS FSFacts Script RunFacts.

Implicit Types (p q top : path) (n c : node) (f : file)
  (es : list (string * node)) (x y : string).

(** Induction on trees: a property of a directory may use it for the
    nodes of its entries. *)
Lemma node_ind' (P : node → Prop) :
  (∀ f, P (Regular f)) →
  (∀ es, Forall (λ e, P e.2) es → P (Directory es)) →
  ∀ n, P n.
Proof.
  intros Hreg Hdir. fix IH 1. intros [f|es]; [apply Hreg|].
  apply Hdir. induction es as [|[x c] es IHes]; constructor; [apply IH|apply IHes].
Qed.

(** Walking from [top] is walking from the empty path, with [top] put
    before every directory. *)
Lemma os_walk_top top n : os_walk fair top n = shift top <$> os_walk fair [] n.
Proof.
  revert top. induction n as [f|es IH] using node_ind'; intros top; [done|].
  simpl. unfold shift at 1. simpl. rewrite (right_id_L [] (++)). f_equal.
  unfold os_path_join. simpl.
  induction IH as [|[x c] es Hc _ IHes]; [done|]. cbn [flat_map fst snd] in *.
  rewrite fmap_app. f_equal; [|exact IHes].
  rewrite (Hc (top ++ [x])), (Hc [x]), <-list_fmap_compose.
  apply list_fmap_ext. intros _ [[r d] fs] _. unfold shift. simpl.
  by rewrite <-(assoc_L (++)).
Qed.

Section find.
Variable ext : string.

Local Abbreviation found := (found ext).

Lemma find_files_found n : find_files ext n = flat_map found (os_walk fair [] n).
Proof.
  unfold find_files, find_files_in. apply flat_map_ext. by intros [[root dirs] files].
Qed.

Lemma found_shift top t : found (shift top t) = (top ++.) <$> found t.
Proof.
  destruct t as [[root dirs] files]. unfold found, shift, os_path_join. simpl.
  induction files as [|file files IH]; [done|]. simpl.
  rewrite fmap_app, IH. f_equal.
  destruct (endswith file ext); [|done]. simpl. by rewrite (assoc_L (++)).
Qed.

Lemma find_files_top top n :
  flat_map found (os_walk fair top n) = (top ++.) <$> find_files ext n.
Proof.
  rewrite find_files_found, os_walk_top.
  induction (os_walk fair [] n) as [|t ts IH]; [done|].
  rewrite fmap_cons. cbn [flat_map]. by rewrite fmap_app, IH, found_shift.
Qed.

Lemma find_files_Regular f : find_files ext (Regular f) = [].
Proof. done. Qed.

(** The files of a directory come first, in the order of its entries;
    then, entry by entry, the files found below each entry. *)
Lemma find_files_Directory es :
  find_files ext (Directory es)
  = ((λ file, [file]) <$> filter (λ file, endswith file ext = true) (filenames es))
    ++ flat_map (λ e, (e.1 ::.) <$> find_files ext e.2) es.
Proof.
  rewrite find_files_found. simpl. f_equal.
  - unfold found, os_path_join. simpl.
    induction (filenames es) as [|file files IH]; [done|].
    simpl. rewrite filter_cons, IH. by destruct (endswith file ext).
  - unfold os_path_join. simpl.
    induction es as [|[x c] es IH]; [done|]. simpl.
    rewrite flat_map_app, IH. f_equal. apply (find_files_top [x]).
Qed.

Lemma find_files_nonempty n p : p ∈ find_files ext n → p ≠ [].
Proof. intros (name & Hl & _)%find_files_last ->. done. Qed.

Lemma wf_tree_Directory es :
  wf_tree (Directory es) = true ↔
  NoDup es.*1 ∧ Forall (λ e, wf_tree e.2 = true) es.
Proof.
  simpl. rewrite andb_true_iff, bool_decide_eq_true, forallb_forall.
  rewrite Forall_forall. split; intros [? H]; (split; [done|]).
  - intros e He. by apply H, list_elem_of_In.
  - intros e He. by apply H, list_elem_of_In.
Qed.

Lemma assoc_of_elem x c es : NoDup es.*1 → (x, c) ∈ es → assoc x es = Some c.
Proof.
  induction es as [|[y d] es IH]; [by intros _ ?%elem_of_nil|].
  rewrite fmap_cons, NoDup_cons. simpl. intros [Hy Hnd] Hin.
  apply elem_of_cons in Hin as [[= -> ->]|Hin].
  - by rewrite decide_True.
  - rewrite decide_False; [by apply IH|].
    intros ->. apply Hy. apply list_elem_of_fmap. by exists (y, c).
Qed.

Lemma elem_of_filenames_inv x es :
  x ∈ filenames es → ∃ f, (x, Regular f) ∈ es.
Proof.
  unfold filenames.
  intros ([y c] & -> & [Hc Hin]%list_elem_of_filter)%list_elem_of_fmap.
  simpl in *. destruct c as [f|]; [|done]. by exists f.
Qed.

Lemma NoDup_filenames es : NoDup es.*1 → NoDup (filenames es).
Proof.
  unfold filenames. induction es as [|[x c] es IH]; [done|].
  rewrite fmap_cons, NoDup_cons, filter_cons. simpl. intros [Hx Hnd].
  case_decide; [|by apply IH]. rewrite fmap_cons. apply NoDup_cons.
  split; [|by apply IH]. simpl.
  intros ([y d] & -> & [_ Hin]%list_elem_of_filter)%list_elem_of_fmap.
  apply Hx. apply list_elem_of_fmap. by exists (y, d).
Qed.

(** In a tree with distinct names, a path that is found leads to a
    regular file. *)
Lemma find_files_sound n p :
  wf_tree n = true → p ∈ find_files ext n → is_Some (resolve_file p n).
Proof.
  revert p. induction n as [f|es IH] using node_ind'; intros p.
  { by intros _ ?%elem_of_nil. }
  intros [Hnd Hwf]%wf_tree_Directory. rewrite find_files_Directory.
  intros [Hp|Hp]%elem_of_app.
  - apply list_elem_of_fmap in Hp as (file & -> & [_ Hin]%list_elem_of_filter).
    apply elem_of_filenames_inv in Hin as [f Hin].
    unfold resolve_file. simpl. by rewrite (assoc_of_elem _ (Regular f)).
  - apply list_elem_of_In, in_flat_map in Hp as ([x c] & Hin & Hp).
    apply list_elem_of_In in Hin, Hp. simpl in Hp.
    apply list_elem_of_fmap in Hp as (p' & -> & Hp').
    rewrite Forall_forall in IH, Hwf.
    specialize (IH _ Hin p' (Hwf _ Hin) Hp').
    unfold resolve_file in *. simpl. by rewrite (assoc_of_elem _ c).
Qed.

(** In a tree with distinct names, no path is found twice. *)
Lemma find_files_NoDup n : wf_tree n = true → NoDup (find_files ext n).
Proof.
  induction n as [f|es IH] using node_ind'; [constructor|].
  intros [Hnd Hwf]%wf_tree_Directory. rewrite find_files_Directory.
  apply NoDup_app. split; [|split].
  - apply (NoDup_fmap_2 _), NoDup_filter. by apply NoDup_filenames.
  - intros p (file & -> & _)%list_elem_of_fmap Hin.
    apply list_elem_of_In, in_flat_map in Hin as ([x c] & _ & Hin).
    apply list_elem_of_In, list_elem_of_fmap in Hin as (p' & [= _ <-] & Hp').
    by apply find_files_nonempty in Hp'.
  - assert (Forall (λ e, NoDup (find_files ext e.2)) es) as Hall.
    { rewrite Forall_forall in *. intros e He. apply IH; [done|]. by apply Hwf. }
    clear IH Hwf. induction es as [|[x c] es IHes]; [constructor|].
    apply Forall_cons_1 in Hall as [Hc Hall].
    rewrite fmap_cons in Hnd. apply NoDup_cons in Hnd as [Hx Hnd].
    cbn [flat_map fst snd] in *. apply NoDup_app. split; [|split].
    + by apply (NoDup_fmap_2 _).
    + intros p (p' & -> & _)%list_elem_of_fmap Hin.
      apply list_elem_of_In, in_flat_map in Hin as ([y d] & Hin & Hp).
      apply list_elem_of_In, list_elem_of_fmap in Hp as (p'' & [= -> _] & _).
      apply Hx. apply list_elem_of_fmap. exists (y, d).
      split; [done | by apply list_elem_of_In].
    + by apply IHes.
Qed.

End find.
End WalkFacts.

(** ** More on replacing *)

Module CountFacts.
Import Text TextFacts ReplaceFacts.
Section count.
Context {A : Type} `{EqDecision A}.
Implicit Types (s pat old new r a b : list A) (i j k : nat).

Lemma elem_of_occurrences pat s i : i ∈ occurrences pat s ↔ occurs_at pat s i.
Proof.
  unfold occurrences. rewrite list_elem_of_filter, elem_of_seq, occurs_at_drop.
  simpl. split; [intros [? [_ ?]]|intros [? ?]]; (split; [done || lia | done || lia]).
Qed.

Lemma occurrences_NoDup pat s : NoDup (occurrences pat s).
Proof. apply NoDup_filter, NoDup_seq. Qed.

Lemma sum_list_lengths_join sep (segs : list (list A)) :
  segs ≠ [] →
  length (join sep segs) + length sep
  = sum_list (length <$> segs) + length segs * length sep.
Proof.
  induction segs as [|g segs IH]; [done|]. intros _.
  destruct (decide (segs = [])) as [->|Hne]; [simpl; lia|].
  specialize (IH Hne).
  rewrite join_cons by done. rewrite !length_app, fmap_cons.
  cbn [sum_list sum_list_with length]. change (id (length g)) with (length g).
  rewrite Nat.mul_succ_l. fold (sum_list (length <$> segs)). lia.
Qed.

Lemma junction_0 sep g (segs : list (list A)) :
  junction sep (g :: segs) 0 = length g.
Proof. unfold junction. by destruct segs. Qed.

Lemma junction_lt sep (segs : list (list A)) k k' :
  sep ≠ [] → k < k' → S k' < length segs →
  junction sep segs k < junction sep segs k'.
Proof.
  intros Hsep.
  assert (0 < length sep) by (destruct sep; [by destruct Hsep | simpl; lia]).
  revert k k'. induction segs as [|g segs IH]; intros k k' Hlt Hk'.
  { simpl in Hk'. lia. }
  destruct k' as [|k']; [lia|].
  rewrite (junction_cons _ _ _ k') by (simpl in *; lia).
  destruct k as [|k].
  - rewrite junction_0. lia.
  - rewrite (junction_cons _ _ _ k) by (simpl in *; lia).
    simpl in Hk'. specialize (IH k k'). lia.
Qed.

(** When [old] has no border, the occurrences of [old] in a text cut at
    them are as many as the junctions. *)
Lemma occurrences_join_length old (segs : list (list A)) :
  unbordered old = true → old ≠ [] → segs ≠ [] →
  Forall (λ g, ¬ occurs old g) segs →
  S (length (occurrences old (join old segs))) = length segs.
Proof.
  intros Hub Hold Hne Hfree.
  assert (occurrences old (join old segs)
          ≡ₚ junction old segs <$> seq 0 (length segs - 1)) as Hperm.
  { apply NoDup_Permutation.
    - apply occurrences_NoDup.
    - apply NoDup_fmap_2_strong; [|apply NoDup_seq].
      intros k k' [_ Hk]%elem_of_seq [_ Hk']%elem_of_seq Heq.
      destruct (Nat.lt_trichotomy k k') as [Hlt|[?|Hlt]]; [|done|].
      + apply (junction_lt old segs) in Hlt; [lia | done | lia].
      + apply (junction_lt old segs) in Hlt; [lia | done | lia].
    - intros i. rewrite elem_of_occurrences, list_elem_of_fmap. split.
      + intros (k & Hk & ->)%occurs_at_join_only; [|done..].
        exists k. split; [done|]. apply elem_of_seq. lia.
      + intros (k & -> & [_ Hk]%elem_of_seq). apply occurs_at_junction. lia.  }
  rewrite Hperm, length_fmap, length_seq. destruct segs; simpl; [done|lia].
Qed.

Section rule.
Variables old new : list A.
Hypothesis old_nonempty : old ≠ [].
Hypothesis old_unbordered : unbordered old = true.

(** Each occurrence replaced changes the length by the difference of the
    lengths of [new] and [old]. *)
Lemma str_replace_length s :
  length (str_replace old new s) + length (occurrences old s) * length old
  = length s + length (occurrences old s) * length new.
Proof.
  destruct (replaced_ltr_join old new s (str_replace old new s))
    as (segs & Hne & Hs & Hr & Hfree); [done | by apply str_replace_ltr|].
  pose proof (occurrences_join_length old segs old_unbordered old_nonempty
                Hne Hfree) as Hcount.
  rewrite <-Hs in Hcount.
  pose proof (sum_list_lengths_join old segs Hne) as H1.
  pose proof (sum_list_lengths_join new segs Hne) as H2.
  rewrite <-Hs in H1. rewrite <-Hr in H2. rewrite <-Hcount in H1, H2. lia.
Qed.

End rule.

(** *** Characters that [old] does not hold *)

Lemma occurs_at_sep pat a x b j :
  x ∉ pat → occurs_at pat (a ++ x :: b) j →
  (j + length pat ≤ length a ∧ occurs_at pat a j)
  ∨ (length a < j ∧ occurs_at pat b (j - length a - 1)).
Proof.
  intros Hx Hj.
  destruct (decide (j + length pat ≤ length a)) as [H1|H1].
  { left. split; [done|]. by eapply occurs_at_inside. }
  destruct (decide (length a < j)) as [H2|H2].
  { right. split; [done|].
    replace (a ++ x :: b) with ((a ++ [x]) ++ b) in Hj
      by by rewrite <-(assoc_L (++)).
    apply occurs_at_app_r in Hj; rewrite length_app in *; simpl in *; [|lia].
    by replace (j - length a - 1) with (j - (length a + 1)) by lia. }
  destruct Hx. destruct Hj as (u & v & Heq & <-).
  apply (f_equal (λ l, l !! length a)) in Heq.
  rewrite list_lookup_middle in Heq by done.
  rewrite lookup_app_r, lookup_app_l in Heq by lia.
  symmetry in Heq. by eapply list_elem_of_lookup_2.
Qed.

Lemma replaced_ltr_sep old new x a ra b rb :
  x ∉ old → old ≠ [] →
  replaced_ltr old new a ra → replaced_ltr old new b rb →
  replaced_ltr old new (a ++ x :: b) (ra ++ x :: rb).
Proof.
  intros Hx Hold Ha Hb.
  induction Ha as [a Hno|pre rest r Hmin _ IH].
  - destruct Hb as [b Hnob|pre rest r Hmin Hrest].
    + constructor. intros [j Hj].
      apply occurs_at_sep in Hj as [[_ Hj]|[_ Hj]]; [| |done].
      * apply Hno. by exists j.
      * apply Hnob. by eexists.
    + replace (a ++ x :: pre ++ old ++ rest)
        with ((a ++ x :: pre) ++ old ++ rest) by by rewrite <-(assoc_L (++)).
      replace (a ++ x :: pre ++ new ++ r)
        with ((a ++ x :: pre) ++ new ++ r) by by rewrite <-(assoc_L (++)).
      constructor; [|done]. intros j Hj.
      rewrite <-(assoc_L (++)) in Hj. simpl in Hj.
      apply occurs_at_sep in Hj as [[_ Hj]|[Hlt Hj]]; [| |done].
      * destruct Hno. by exists j.
      * apply Hmin in Hj. rewrite length_app. simpl. lia.
  - rewrite <-!(assoc_L (++)).
    constructor; [|done]. intros j Hj.
    rewrite !(assoc_L (++)), <-(assoc_L (++) pre) in Hj.
    apply occurs_at_sep in Hj as [[_ Hj]|[Hlt Hj]]; [| |done].
    + by apply Hmin.
    + rewrite !length_app in Hlt. lia.
Qed.

(** The replacement does not reach across a character that [old] does
    not hold. *)
Lemma str_replace_sep old new x a b :
  x ∉ old → old ≠ [] →
  str_replace old new (a ++ x :: b)
  = str_replace old new a ++ x :: str_replace old new b.
Proof.
  intros Hx Hold. symmetry. apply replaced_ltr_str_replace; [done|].
  apply replaced_ltr_sep; [done..| |]; by apply str_replace_ltr.
Qed.

End count.
End CountFacts.

(** ** Names *)

Module NameFacts.
Import Script.

Implicit Types (s t suf stem : string) (k m : nat).

Lemma length_append s t :
  String.length (s +:+ t) = String.length s + String.length t.
Proof. induction s as [|c s IH]; simpl; [done|]. by rewrite IH. Qed.

Lemma substring_all s : String.substring 0 (String.length s) s = s.
Proof. induction s as [|c s IH]; simpl; [done|]. by rewrite IH. Qed.

Lemma substring_append_r s t :
  String.substring (String.length s) (String.length t) (s +:+ t) = t.
Proof. induction s as [|c s IH]; simpl; [apply substring_all|done]. Qed.

Lemma substring_split s k :
  k ≤ String.length s →
  s = String.substring 0 k s +:+ String.substring k (String.length s - k) s.
Proof.
  revert k. induction s as [|c s IH]; intros [|k] Hk; simpl in *; try lia.
  - done.
  - by rewrite substring_all.
  - change (String c s = String c (String.substring 0 k s
              +:+ String.substring k (String.length s - k) s)).
    f_equal. apply IH. lia.
Qed.

(** [s.endswith(suf)] holds when [s] is some string followed by [suf]. *)
Lemma endswith_spec s suf :
  endswith s suf = true ↔ ∃ stem, s = stem +:+ suf.
Proof.
  unfold endswith. rewrite andb_true_iff, Nat.leb_le, bool_decide_eq_true.
  split.
  - intros [Hle Hsuf].
    exists (String.substring 0 (String.length s - String.length suf) s).
    rewrite (substring_split s (String.length s - String.length suf)) at 1
      by lia.
    f_equal. rewrite <-Hsuf at 3. f_equal. lia.
  - intros [stem ->]. rewrite length_append. split; [lia|].
    replace (String.length stem + String.length suf - String.length suf)
      with (String.length stem) by lia.
    apply substring_append_r.
Qed.

End NameFacts.


(** ** More on calls and runs *)

Module CallFacts.
Import Text TextFacts ReplaceFacts Codec CodecFacts FS FSFacts Script Outcome.
Import StepFacts RunFacts ScriptFacts WalkFacts.

Implicit Types (p q : path) (n : node) (f : file) (w : world)
  (pl : platform) (v : verdict) (vs : list (path * verdict)).

Lemma reads_events_of vs : reads (events_of vs) = vs.*1.
Proof.
  unfold reads, events_of. induction vs as [|[p v] vs IH]; [done|].
  cbn [flat_map fst snd]. rewrite flat_map_app, IH, fmap_cons.
  destruct v; reflexivity.
Qed.

Lemma length_lines_of vs : length (lines_of vs) ≤ length vs.
Proof.
  unfold lines_of. induction vs as [|[p v] vs IH]; [done|].
  cbn [flat_map fst snd]. rewrite length_app. simpl.
  assert (length (verdict_lines p v) ≤ 1); [|lia].
  unfold verdict_lines. destruct v; simpl; lia.
Qed.

Lemma rewritten_paths_sublist vs : rewritten_paths vs `sublist_of` vs.*1.
Proof.
  unfold rewritten_paths. induction vs as [|[p v] vs IH]; [done|].
  cbn [flat_map fst snd]. rewrite fmap_cons. simpl.
  destruct (verdict_result v); simpl.
  - by apply sublist_skip.
  - by apply sublist_cons.
Qed.

Lemma length_updated_paths (ls : list line) :
  length (updated_paths ls) ≤ length ls.
Proof.
  unfold updated_paths. induction ls as [|l ls IH]; [done|].
  cbn [flat_map]. rewrite length_app. destruct l; simpl; lia.
Qed.

Lemma verdict_of_Rewritten pl p n f' :
  verdict_of pl OLD NEW p n = Rewritten f' →
  ∃ f, resolve_file p n = Some f ∧ file_verdict pl OLD NEW f = Rewritten f'.
Proof.
  unfold verdict_of, resolve_file.
  destruct (resolve p n) as [[f|es]|]; [eauto|done..].
Qed.

Lemma verdict_of_encodable pl p n f0 :
  verdict_of pl OLD NEW p n ≠ Unencodable f0.
Proof.
  unfold verdict_of. destruct (resolve p n) as [[f|es]|]; [|done..].
  apply file_verdict_encodable; rule_side.
Qed.


(** The verdict on a file that holds the old path. *)
Lemma file_verdict_match pl f (c : text) :
  readable f = true → decode_text (data f) = Some c → occurs OLD c →
  if writable f
  then ∃ bs, file_verdict pl OLD NEW f = Rewritten (File bs true true)
             ∧ decode_text bs = Some (updated_content c)
  else file_verdict pl OLD NEW f = Denied EACCES.
Proof.
  intros Hr Hc Hocc.
  assert (updated_content c ≠ c) as Hne.
  { apply str_replace_occurs; [rule_side..|done]. }
  destruct (writable f) eqn:Hw.
  - destruct (encode_decode_text pl (updated_content c)) as (bs & Hbs & Hdec).
    { apply str_replace_ok; [rule_side..|]. by eapply decode_text_ok. }
    exists bs. split; [|done].
    apply file_verdict_Rewritten; [rule_side..|]. by exists c, bs.
  - unfold file_verdict. rewrite Hr, Hc, Hw.
    by rewrite bool_decide_true by done.
Qed.

End CallFacts.


(** ** The script in a system

    What changes when a directory cannot be listed, when the device
    fails on a write, and when the standard output cannot encode a
    path. *)

Module SystemFacts.
Import Text TextFacts ReplaceFacts Codec CodecFacts FS FSFacts Script Outcome.
Import StepFacts RunFacts ScriptFacts WalkFacts CallFacts.

Implicit Types (p q top : path) (n c : node) (f : file) (w : world)
  (es : list (string * node)) (x y : string) (sys : system) (pl : platform).

(** *** The walk *)

Lemma is_dir_prune sys top n : is_dir (prune sys top n) = is_dir n.
Proof. destruct n as [f|es]; simpl; [done|]. by destruct (listable sys top). Qed.

Lemma filenames_prune sys top es :
  filenames (map (λ e, (e.1, prune sys (os_path_join top e.1) e.2)) es)
  = filenames es.
Proof.
  unfold filenames in *. induction es as [|[x c] es IH]; [done|].
  cbn [map fst snd]. rewrite !filter_cons. cbn [fst snd].
  rewrite is_dir_prune.
  destruct (decide (is_dir c = false)); rewrite ?fmap_cons;
    cbn [fst]; [f_equal|]; exact IH.
Qed.

Lemma find_files_in_found sys ext n :
  find_files_in sys ext n = flat_map (found ext) (os_walk sys [] n).
Proof.
  unfold find_files_in. apply flat_map_ext. by intros [[root dirs] files].
Qed.

(** What the walk finds in a system is what it finds in the fair system
    when the directories that cannot be listed are seen as empty. *)
Lemma found_os_walk_prune ext sys top n :
  flat_map (found ext) (os_walk sys top n)
  = flat_map (found ext) (os_walk fair top (prune sys top n)).
Proof.
  revert top. induction n as [f|es IH] using node_ind'; intros top; [done|].
  simpl. destruct (listable sys top); [|done]. simpl.
  f_equal.
  - unfold found. simpl. by rewrite filenames_prune.
  - induction IH as [|[x c] es Hc _ IHes]; [done|].
    cbn [flat_map map fst snd]. rewrite !flat_map_app. f_equal; [|exact IHes].
    apply Hc.
Qed.

Lemma find_files_in_prune sys ext n :
  find_files_in sys ext n = find_files ext (prune sys [] n).
Proof.
  by rewrite find_files_in_found, found_os_walk_prune, find_files_found.
Qed.

Lemma assoc_map_prune sys top x es :
  assoc x (map (λ e, (e.1, prune sys (os_path_join top e.1) e.2)) es)
  = prune sys (os_path_join top x) <$> assoc x es.
Proof.
  induction es as [|[y c] es IH]; [done|]. simpl.
  case_decide as Hxy; [by subst y|done].
Qed.

(** A path leads to a file in the pruned tree when it does in the tree
    and every directory on the way can be listed. *)
Lemma resolve_file_prune sys top p n f :
  resolve_file p (prune sys top n) = Some f ↔
  resolve_file p n = Some f
  ∧ ∀ k, k < length p → listable sys (top ++ take k p) = true.
Proof.
  revert top n. induction p as [|x p IH]; intros top n.
  - destruct n as [f'|es]; simpl.
    + split; [intros ?; split; [done|]; simpl; lia | by intros [? _]].
    + unfold resolve_file. simpl. destruct (listable sys top); simpl;
        split; try done; by intros [? _].
  - destruct n as [f'|es]; [split; [done|by intros [? _]]|].
    unfold resolve_file. simpl.
    destruct (listable sys top) eqn:Htop; simpl.
    + rewrite assoc_map_prune. destruct (assoc x es) as [c|] eqn:Hx; simpl.
      * fold (resolve_file p (prune sys (os_path_join top x) c)).
        fold (resolve_file p c). rewrite IH. unfold os_path_join.
        split; intros [Hf Hk]; (split; [done|]).
        -- intros [|k] Hlt; simpl; [by rewrite (right_id_L [] (++))|].
           replace (top ++ x :: take k p) with ((top ++ [x]) ++ take k p)
             by by rewrite <-(assoc_L (++)).
           apply Hk. lia.
        -- intros k Hlt. rewrite <-(assoc_L (++)). apply (Hk (S k)). lia.
      * split; [done|by intros [? _]].
    + split; [done|]. intros [_ Hk]. specialize (Hk 0 ltac:(lia)).
      simpl in Hk. rewrite (right_id_L [] (++)) in Hk. congruence.
Qed.

Lemma resolve_file_prune_reachable sys p n f :
  resolve_file p (prune sys [] n) = Some f ↔
  resolve_file p n = Some f ∧ reachable sys p.
Proof. apply resolve_file_prune. Qed.

Lemma names_map_prune sys top es :
  (map (λ e, (e.1, prune sys (os_path_join top e.1) e.2)) es).*1 = es.*1.
Proof.
  induction es as [|[x c] es IH]; [done|].
  cbn [map fst snd]. rewrite !fmap_cons. cbn [fst]. f_equal. exact IH.
Qed.

Lemma wf_tree_prune sys top n :
  wf_tree n = true → wf_tree (prune sys top n) = true.
Proof.
  revert top. induction n as [f|es IH] using node_ind'; intros top; [done|].
  simpl prune. destruct (listable sys top); [|intros _; by vm_compute].
  rewrite !wf_tree_Directory. intros [Hnd Hall]. split.
  - by rewrite names_map_prune.
  - clear Hnd. induction IH as [|[x c] es Hc _ IHes]; [done|].
    apply Forall_cons in Hall as [Hwc Hall]. cbn [map fst snd].
    constructor; [by apply Hc|by apply IHes].
Qed.

(** The files the first loop of [main] finds in a system. *)
Lemma find_files_in_complete sys ext n p f name :
  resolve_file p n = Some f → reachable sys p →
  last p = Some name → endswith name ext = true →
  p ∈ find_files_in sys ext n.
Proof.
  intros Hf Hreach Hl He. rewrite find_files_in_prune.
  eapply find_files_complete; [|done..].
  by apply resolve_file_prune_reachable.
Qed.

Lemma find_files_in_sound sys ext n p :
  wf_tree n = true → p ∈ find_files_in sys ext n →
  (∃ f, resolve_file p n = Some f) ∧ reachable sys p
  ∧ ∃ name, last p = Some name ∧ endswith name ext = true.
Proof.
  intros Hwf. rewrite find_files_in_prune. intros Hin.
  destruct (find_files_sound ext _ _ (wf_tree_prune sys [] n Hwf) Hin)
    as [f Hf].
  apply resolve_file_prune_reachable in Hf as [Hf Hreach].
  split; [by exists f|]. split; [done|]. by eapply find_files_last.
Qed.

Lemma find_files_in_NoDup sys ext n :
  wf_tree n = true → NoDup (find_files_in sys ext n).
Proof.
  intros Hwf. rewrite find_files_in_prune.
  by apply find_files_NoDup, wf_tree_prune.
Qed.

Lemma find_files_in_last sys ext n p :
  p ∈ find_files_in sys ext n →
  ∃ name, last p = Some name ∧ endswith name ext = true.
Proof. rewrite find_files_in_prune. apply find_files_last. Qed.

Lemma reachable_fair p : reachable fair p.
Proof. by intros k _. Qed.

(** *** Calls *)




Lemma reads_verdict_events p v : reads (verdict_events p v) = [p].
Proof. by destruct v. Qed.

Lemma written_verdict_events p v :
  written (verdict_events p v) = []
  ∨ written (verdict_events p v) = [p]
    ∧ ((∃ f', v = Rewritten f') ∨ ∃ f0, v = Unencodable f0).
Proof. destruct v; simpl; eauto. Qed.

Lemma call_lines_cases sys p v :
  (call_lines sys p v = [] ∧ call_outcome sys p v ≠ Return true)
  ∨ (call_lines sys p v = [Updated p] ∧ call_outcome sys p v = Return true
     ∧ (∃ f', v = Rewritten f') ∧ clean sys p)
  ∨ (∃ e, call_lines sys p v = [ErrorUpdating p e]
          ∧ call_outcome sys p v = Return false
          ∧ body_exn sys p v = Some e ∧ encodes sys p = true).
Proof.
  unfold call_lines, call_outcome, clean.
  destruct (body_exn sys p v) as [e|] eqn:He.
  - destruct (encodes sys p); [right; right; by exists e|by left].
  - destruct v; simpl in *; try done; try (by left).
    destruct (write_fault sys p) as [[e k]|]; [done|].
    destruct (encodes sys p); [|done]. right; left. repeat split; eauto.
Qed.

Lemma call_outcome_cases sys p v :
  call_outcome sys p v = Return true
  ∨ call_outcome sys p v = Return false
  ∨ call_outcome sys p v = Raise UnicodeEncodeError ∧ encodes sys p = false.
Proof.
  unfold call_outcome. destruct (body_exn sys p v).
  - destruct (encodes sys p); eauto.
  - destruct (verdict_result v); eauto.
Qed.

(** Where the system is clean, a call is the call of the fair system. *)
Lemma update_step_clean sys pl p w :
  clean sys p →
  update_imports_in_file_on sys pl p w = update_imports_in_file pl p w.
Proof.
  intros [Henc Hfault]. unfold update_imports_in_file_on, update_imports_in_file.
  rewrite update_step_in, update_step. simpl.
  unfold call_outcome, call_lines, verdict_lines.
  destruct (verdict_of pl OLD NEW p (tree w)); simpl;
    rewrite ?Henc, ?Hfault; try done.
Qed.

Lemma update_all_in_clean sys pl ps cnt w :
  Forall (clean sys) ps →
  update_all_in sys pl OLD NEW ps cnt w = update_all pl OLD NEW ps cnt w.
Proof.
  unfold update_all. intros Hall. revert cnt w.
  induction Hall as [|p ps Hp _ IH]; intros cnt w; [done|].
  simpl. unfold mbind, io_bind.
  pose proof (update_step_clean sys pl p w Hp) as Heq.
  unfold update_imports_in_file_on, update_imports_in_file,
    update_imports_in_file_with in Heq. rewrite Heq.
  destruct (update_imports_in_file_in fair pl OLD NEW p w) as [[b|e] w'];
    [apply IH|done].
Qed.

(** In a system that is clean on the files found, [main] is the loop of
    the fair system over these files. *)
Lemma main_on_clean sys pl w :
  let ps := go_files_on sys (tree w) in
  let vs := verdicts pl OLD NEW ps (tree w) in
  Forall (clean sys) ps →
  main_on sys pl w
  = (Return (),
     World (tree_after pl OLD NEW ps (tree w))
           (stdout w ++ lines_of vs ++ [Summary (length (rewritten_paths vs))])
           (trace w ++ events_of vs)).
Proof.
  intros ps vs Hall. unfold main_on, main_in, mbind, io_bind, get_tree.
  fold (go_files_on sys (tree w)). fold ps.
  rewrite update_all_in_clean by done. rewrite update_all_verdicts.
  unfold print. simpl. by rewrite <-(assoc_L (++)).
Qed.

(** *** Runs *)







End SystemFacts.


(** * Further properties of the script *)

Module Extras.
Import Text TextFacts ReplaceFacts Codec CodecFacts FS FSFacts Script Outcome.
Import StepFacts RunFacts ScriptFacts Trees WalkFacts CountFacts NameFacts.
Import CallFacts SystemFacts.

Implicit Types (p q : path) (n : node) (f : file) (w : world)
  (pl : platform) (sys : system).

(** X1.  In a tree whose directories have distinct names, and in any
    system, the first loop of [main] finds the regular files whose name
    is some stem followed by [.go] and that can be reached: every
    directory from the top down to the one that holds the file can be
    listed.  It finds nothing else, and none of them twice.  A Go file
    below a directory that cannot be listed is not found. *)
Theorem go_files_exact sys n :
  wf_tree n = true →
  NoDup (go_files_on sys n)
  ∧ ∀ p, p ∈ go_files_on sys n
         ↔ ∃ f dir stem, p = dir ++ [stem +:+ ".go"]
                          ∧ resolve_file p n = Some f
                          ∧ ∀ k, k ≤ length dir →
                                 listable sys (take k dir) = true.
Proof.
  intros Hwf. split; [by apply find_files_in_NoDup|]. intros p. split.
  - intros Hp.
    destruct (find_files_in_sound sys ".go" n p Hwf Hp)
      as ([f Hf] & Hreach & name & Hlast & [stem ->]%endswith_spec).
    apply last_Some in Hlast as [dir ->]. exists f, dir, stem.
    split; [done|]. split; [done|]. intros k Hk.
    specialize (Hreach k). rewrite length_app in Hreach. simpl in Hreach.
    rewrite take_app_le in Hreach by done. apply Hreach. lia.
  - intros (f & dir & stem & -> & Hf & Hdir).
    eapply find_files_in_complete; [done| |apply last_snoc|].
    + intros k Hk. rewrite length_app in Hk. simpl in Hk.
      rewrite take_app_le by lia. apply Hdir. lia.
    + apply endswith_spec. by exists stem.
Qed.

Lemma go_files_exact_witness :
  NoDup (go_files_on sub_locked mixed)
  ∧ ["ro.go"] ∈ go_files_on sub_locked mixed
  ∧ (["sub"; "ok.go"] ∉ go_files_on sub_locked mixed).
Proof.
  destruct (go_files_exact sub_locked mixed) as [Hnd Hin].
  - vm_compute. reflexivity.
  - split; [exact Hnd|]. split.
    + apply Hin. exists (File OLD_bytes true false), [], "ro".
      split; [reflexivity|]. split; [reflexivity|].
      intros [|k] Hk; [reflexivity|simpl in Hk; lia].
    + intros (f & dir & stem & Hp & _ & Hdir)%Hin.
      change ["sub"; "ok.go"] with (["sub"] ++ ["ok.go"]) in Hp.
      apply app_inj_2 in Hp as [<- _]; [|done].
      specialize (Hdir 1 ltac:(simpl; lia)). by vm_compute in Hdir.
Defined.


(** X3.  The walk is top-down: the Go files of a directory come first, in
    the order of its entries, and then, entry by entry, the Go files
    found below each entry, with the name of the entry put before their
    paths. *)
Theorem go_files_top_down (es : list (string * node)) :
  go_files (Directory es)
  = ((λ file, [file])
       <$> filter (λ file, endswith file ".go" = true) (filenames es))
    ++ flat_map (λ e, (e.1 ::.) <$> go_files e.2) es.
Proof. apply find_files_Directory. Qed.




(** An instance: with a standard output in UTF-8, the call on a file
    whose name is not UTF-8 and that holds the old path rewrites the
    file, prints nothing and raises. *)
Lemma rewritten_and_raised :
  update_imports_in_file_on utf8_stdout Posix [odd_name] (start odd_file)
  = (Raise UnicodeEncodeError,
     World (Directory [(odd_name, plain NEW_bytes)]) []
           [Open R [odd_name] true; Open W [odd_name] true]).
Proof. vm_compute. reflexivity. Qed.



(** X8.  Replacing twice is replacing once: the updated text holds no
    occurrence of the old path, so the replacement leaves it as it is.
    The texts the replacement leaves as they are are the texts without an
    occurrence of the old path. *)
Theorem updated_content_idempotent (c : text) :
  updated_content (updated_content c) = updated_content c
  ∧ (updated_content c = c ↔ ¬ occurs OLD c).
Proof.
  split.
  - apply str_replace_idem; rule_side.
  - split.
    + intros Heq Hocc. by apply (str_replace_occurs OLD NEW) in Hocc;
        try rule_side.
    + apply str_replace_no_occurrence, OLD_nonempty.
Qed.

(** X9.  The new path is two characters shorter than the old one, and
    the updated text is shorter than the text read by two characters for
    each occurrence of the old path. *)
Theorem updated_content_length (c : text) :
  length c = length (updated_content c) + 2 * length (occurrences OLD c).
Proof.
  pose proof (str_replace_length OLD NEW OLD_nonempty OLD_unbordered c) as H.
  change (length OLD) with 39 in H. change (length NEW) with 37 in H.
  unfold updated_content. lia.
Qed.

(** X10.  The replacement does not reach across a character that the old
    path does not hold, such as a line feed, a space or a quote: the
    updated text of two texts put together with such a character between
    them is made of their updated texts. *)
Theorem updated_content_across (x : N) (a b : text) :
  x ∉ OLD →
  updated_content (a ++ x :: b) = updated_content a ++ x :: updated_content b.
Proof. intros Hx. by apply str_replace_sep. Qed.

Lemma updated_content_across_witness :
  updated_content (OLD ++ LF :: OLD) = NEW ++ LF :: NEW.
Proof.
  rewrite (updated_content_across LF OLD OLD).
  - reflexivity.
  - intros Hin. pose proof OLD_no_LF as H. rewrite Forall_forall in H.
    by apply (H LF Hin).
Defined.

(** X11.  In a system in which the standard output can encode the path
    of every file found and the device does not fail on any of them, a
    run returns and updates every Go file that can be reached, read and
    written and whose text holds the old path: after the run the file,
    read the way the script reads it, holds the updated text; its
    [Updated: ...] line is printed and it is among the files written. *)
Theorem run_updates_every_match sys pl n p name f (c : text) :
  resolve_file p n = Some f →
  last p = Some name → endswith name ".go" = true →
  (∀ k, k < length p → listable sys (take k p) = true) →
  readable f = true → writable f = true →
  decode_text (data f) = Some c → occurs OLD c →
  (∀ q, q ∈ go_files_on sys n →
        encodes sys q = true ∧ write_fault sys q = None) →
  (main_on sys pl (start n)).1 = Return ()
  ∧ ∃ f', resolve_file p (tree (main_on sys pl (start n)).2) = Some f'
          ∧ decode_text (data f') = Some (updated_content c)
          ∧ Updated p ∈ stdout (main_on sys pl (start n)).2
          ∧ p ∈ written (trace (main_on sys pl (start n)).2).
Proof.
  intros Hf Hlast Hext Hreach Hr Hw Hc Hocc Hclean.
  assert (p ∈ go_files_on sys n) as Hin by by eapply find_files_in_complete.
  pose proof (file_verdict_match pl f c Hr Hc Hocc) as Hv. rewrite Hw in Hv.
  destruct Hv as (bs & Hv & Hdec).
  rewrite main_on_clean by (apply Forall_forall; intros q Hq; by apply Hclean).
  simpl. split; [done|].
  set (ps := go_files_on sys n).
  assert ((p, Rewritten (File bs true true)) ∈ verdicts pl OLD NEW ps n)
    as Hpv.
  { rewrite <-Hv. apply verdicts_first; try rule_side; done. }
  exists (File bs true true). split; [|split; [done|split]].
  - rewrite resolve_file_tree_after, decide_True, Hf by (try rule_side; done).
    simpl. f_equal. by apply rewrite_Rewritten.
  - apply elem_of_app. left. apply elem_of_lines_of.
    exists p, (Rewritten (File bs true true)). split; [done|by left].
  - rewrite (right_id_L [] (++)) || simpl.
    rewrite written_events_of by (apply verdicts_encodable; rule_side).
    apply elem_of_rewritten_paths. eauto.
Qed.

Lemma run_updates_every_match_witness :
  (main_on utf8_stdout Windows (start mixed)).1 = Return ()
  ∧ Updated ["sub"; "ok.go"] ∈ stdout (main_on utf8_stdout Windows (start mixed)).2.
Proof.
  destruct (run_updates_every_match utf8_stdout Windows mixed ["sub"; "ok.go"]
              "ok.go" (File OLD_bytes true true) OLD)
    as (Hret & f' & _ & _ & H & _).
  - reflexivity.
  - reflexivity.
  - vm_compute. reflexivity.
  - intros k _. reflexivity.
  - reflexivity.
  - reflexivity.
  - vm_compute. reflexivity.
  - exists 0, [], []. split; [|reflexivity]. by rewrite (right_id_L [] (++)).
  - assert (go_files_on utf8_stdout mixed
            = [["bad.go"]; ["ro.go"]; ["sub"; "ok.go"]]) as ->
      by (vm_compute; reflexivity).
    intros q Hq. rewrite !elem_of_cons, elem_of_nil in Hq.
    destruct Hq as [->|[->|[->|[]]]]; split; vm_compute; reflexivity.
  - split; [exact Hret|exact H].
Defined.

(** X12.  The text read from a file can be written back, on either
    platform, and reading what was written gives the same text again.  On
    POSIX, for a file without a carriage return, writing back the text
    read gives the bytes of the file. *)
Theorem text_file_round_trip pl bs (s : text) :
  decode_text bs = Some s →
  ∃ bs', encode_text pl s = Some bs'
         ∧ decode_text bs' = Some s
         ∧ (pl = Posix → x0d ∉ bs → bs' = bs).
Proof.
  intros Hs.
  destruct (encode_decode_text pl s) as (bs' & Hbs' & Hdec);
    [by eapply decode_text_ok|].
  exists bs'. split; [done|]. split; [done|]. intros -> Hno.
  unfold decode_text in Hs.
  destruct (utf8_decode bs) as [s0|] eqn:Hs0; [|done]. injection Hs as <-.
  apply utf8_encode_decode in Hs0.
  rewrite universal_newlines_id in Hbs' by by eapply utf8_encode_no_CR.
  unfold encode_text in Hbs'. rewrite write_newlines_posix in Hbs'.
  congruence.
Qed.

Lemma text_file_round_trip_witness :
  encode_text Posix (py_str "package main") = Some (list_byte_of_string "package main").
Proof.
  destruct (text_file_round_trip Posix (list_byte_of_string "package main")
              (py_str "package main")) as (bs' & -> & _ & Heq).
  - vm_compute. reflexivity.
  - f_equal. apply Heq; [reflexivity|].
    apply (bool_decide_eq_true_1 _). vm_compute. reflexivity.
Defined.



(** X14.  In any system, the body of a call ends in one of these ways.
    Either it leaves the tree as it was, and returns [False], or raises
    the error of an [open] on its path, or raises a decoding error.  Or
    the text it read changes under the replacement; that text can always
    be encoded, so that writing raises no encoding error; and then
    either the device takes the bytes, the file holds them all, and the
    body returns [True], or raises [UnicodeEncodeError] in printing where
    the standard output cannot encode the path; or the device fails
    after some bytes, the body raises that error, and the file is left
    cut: it holds the bytes that went through and no more. *)
Theorem update_body_outcomes sys pl p w :
  let r := update_body_in sys pl OLD NEW p w in
  (tree r.2 = tree w
   ∧ (r.1 = Return false ∨ (∃ e, r.1 = Raise (OSError e p))
      ∨ r.1 = Raise UnicodeDecodeError))
  ∨ (∃ f (c : text) bs,
       resolve_file p (tree w) = Some f
       ∧ decode_text (data f) = Some c ∧ updated_content c ≠ c
       ∧ encode_text pl (updated_content c) = Some bs
       ∧ ((write_fault sys p = None
           ∧ resolve_file p (tree r.2) = Some (File bs true true)
           ∧ (r.1 = Return true ∧ encodes sys p = true
              ∨ r.1 = Raise UnicodeEncodeError ∧ encodes sys p = false))
          ∨ (∃ e k, write_fault sys p = Some (e, k)
                    ∧ r.1 = Raise (WriteError e)
                    ∧ resolve_file p (tree r.2)
                      = Some (File (take k bs) true true)))).
Proof.
  intros r. unfold r. rewrite update_body_in_verdict. simpl. clear r.
  pose proof (verdict_of_encodable pl p (tree w)) as Henc.
  destruct (verdict_of pl OLD NEW p (tree w)) as [e| | |e|f0|f'] eqn:Hv;
    simpl; try (left; split; [done|]; eauto; fail).
  { by destruct (Henc f0). }
  right. apply verdict_of_Rewritten in Hv as (f & Hf & Hv).
  apply file_verdict_Rewritten in Hv
    as (c & bs & Hr & Hw & Hc & Hne & Hbs & _ & ->); [|rule_side..].
  exists f, c, bs. repeat (split; [done|]).
  destruct (write_fault sys p) as [[e k]|]; simpl.
  - right. exists e, k. repeat (split; [done|]).
    by eapply resolve_file_put_eq.
  - left. split; [done|]. split; [by eapply resolve_file_put_eq|].
    destruct (encodes sys p); eauto.
Qed.

End Extras.

